(** * fluentd-forwarder: the Treasure Data output (output_td.go)

    A shallow embedding of the naming normalizer, the destination
    resolution, the spooler registry, the record encoder, the chunk flush
    handler and the Emit/Stop facade of [output_td.go], with the properties
    of the design document proved (or refuted) on it.

    Go strings and byte slices are sequences of bytes: a [string] here is a
    sequence of 8-bit [ascii] characters, a [[]byte] is a [list ascii], and
    the conversions [([]byte)(s)] and [(string)(b)] are
    [list_ascii_of_string] and [string_of_list_ascii]. *)

From Stdlib Require Import ZArith Lia Ascii String.
From stdpp Require Import base list gmap strings fin_maps.

Local Open Scope Z_scope.

(** ** Bytes and runes *)

Definition byte_val (c : ascii) : Z := Z.of_N (N_of_ascii c).

(** Go's conversion [byte(x)] of an integer: the low eight bits. *)
Definition byte_of (z : Z) : ascii := ascii_of_N (Z.to_N (z mod 256)).

Definition bytes_of (s : string) : list ascii := list_ascii_of_string s.

(** *** unicode/utf8 (Go standard library) *)

Module utf8.

Definition RuneError : Z := 0xFFFD.
Definition RuneSelf : Z := 0x80.
Definition MaxRune : Z := 0x10FFFF.
Definition surrogateMin : Z := 0xD800.
Definition surrogateMax : Z := 0xDFFF.
Definition rune1Max : Z := 0x7F.
Definition rune2Max : Z := 0x7FF.
Definition rune3Max : Z := 0xFFFF.
Definition t2 : Z := 0xC0.
Definition t3 : Z := 0xE0.
Definition t4 : Z := 0xF0.
Definition tx : Z := 0x80.
Definition maskx : Z := 0x3F.
Definition mask2 : Z := 0x1F.
Definition mask3 : Z := 0x0F.
Definition mask4 : Z := 0x07.
Definition locb : Z := 0x80.
Definition hicb : Z := 0xBF.

(** Information about the first byte of an encoding: [as_] is ASCII,
    [xx] is an illegal first byte, otherwise the low three bits are the
    size and the high four bits index [acceptRanges]. *)
Definition xx : Z := 0xF1.
Definition as_ : Z := 0xF0.
Definition s1 : Z := 0x02.
Definition s2 : Z := 0x13.
Definition s3 : Z := 0x03.
Definition s4 : Z := 0x23.
Definition s5 : Z := 0x34.
Definition s6 : Z := 0x04.
Definition s7 : Z := 0x44.

Definition first (p0 : Z) : Z :=
  if p0 <? 0x80 then as_
  else if p0 <? 0xC2 then xx
  else if p0 <? 0xE0 then s1
  else if p0 =? 0xE0 then s2
  else if p0 <? 0xED then s3
  else if p0 =? 0xED then s4
  else if p0 <? 0xF0 then s3
  else if p0 =? 0xF0 then s5
  else if p0 <? 0xF4 then s6
  else if p0 =? 0xF4 then s7
  else xx.

(** [acceptRanges[i]]: the range of valid values of the second byte. *)
Definition acceptRanges (i : Z) : Z * Z :=
  if i =? 0 then (locb, hicb)
  else if i =? 1 then (0xA0, hicb)
  else if i =? 2 then (locb, 0x9F)
  else if i =? 3 then (0x90, hicb)
  else if i =? 4 then (locb, 0x8F)
  else (0, 0).

(** [DecodeRune(p)]: the first rune of [p] and its width in bytes; an
    invalid or truncated encoding is [(RuneError, 1)]. *)
Definition DecodeRune (p : list ascii) : Z * nat :=
  match p with
  | [] => (RuneError, 0%nat)
  | c0 :: p' =>
    let p0 := byte_val c0 in
    let x := first p0 in
    if as_ <=? x then
      ((if x =? xx then RuneError else p0), 1%nat)
    else
      let sz := Z.to_nat (Z.land x 7) in
      let accept := acceptRanges (Z.shiftr x 4) in
      if (length p <? sz)%nat then (RuneError, 1%nat)
      else
        match p' with
        | [] => (RuneError, 1%nat)
        | c1 :: p'' =>
          let b1 := byte_val c1 in
          if (b1 <? accept.1) || (accept.2 <? b1) then (RuneError, 1%nat)
          else if (sz <=? 2)%nat then
            (Z.lor (Z.shiftl (Z.land p0 mask2) 6) (Z.land b1 maskx), 2%nat)
          else
            match p'' with
            | [] => (RuneError, 1%nat)
            | c2 :: p''' =>
              let b2 := byte_val c2 in
              if (b2 <? locb) || (hicb <? b2) then (RuneError, 1%nat)
              else if (sz <=? 3)%nat then
                (Z.lor (Z.lor (Z.shiftl (Z.land p0 mask3) 12)
                              (Z.shiftl (Z.land b1 maskx) 6))
                       (Z.land b2 maskx), 3%nat)
              else
                match p''' with
                | [] => (RuneError, 1%nat)
                | c3 :: _ =>
                  let b3 := byte_val c3 in
                  if (b3 <? locb) || (hicb <? b3) then (RuneError, 1%nat)
                  else
                    (Z.lor (Z.lor (Z.lor (Z.shiftl (Z.land p0 mask4) 18)
                                         (Z.shiftl (Z.land b1 maskx) 12))
                                  (Z.shiftl (Z.land b2 maskx) 6))
                           (Z.land b3 maskx), 4%nat)
                end
            end
        end
  end.

(** [AppendRune(nil, r)] for a rune [r >= 0]: the UTF-8 encoding of [r];
    a surrogate or a value above [MaxRune] is encoded as [RuneError]. *)
Definition encode3 (r : Z) : list ascii :=
  [byte_of (Z.lor t3 (Z.shiftr r 12));
   byte_of (Z.lor tx (Z.land (Z.shiftr r 6) maskx));
   byte_of (Z.lor tx (Z.land r maskx))].

Definition AppendRune (r : Z) : list ascii :=
  if r <=? rune1Max then [byte_of r]
  else if r <=? rune2Max then
    [byte_of (Z.lor t2 (Z.shiftr r 6)); byte_of (Z.lor tx (Z.land r maskx))]
  else if (MaxRune <? r) || ((surrogateMin <=? r) && (r <=? surrogateMax)) then
    encode3 RuneError
  else if r <=? rune3Max then encode3 r
  else
    [byte_of (Z.lor t4 (Z.shiftr r 18));
     byte_of (Z.lor tx (Z.land (Z.shiftr r 12) maskx));
     byte_of (Z.lor tx (Z.land (Z.shiftr r 6) maskx));
     byte_of (Z.lor tx (Z.land r maskx))].

End utf8.

(** *** package bytes (Go standard library) *)

(** [bytes.Map(mapping, s)]: every rune of [s] (decoded as UTF-8; an ASCII
    byte is its own rune) is replaced by [mapping] of it, re-encoded; a
    negative result drops the rune. [skip] counts the bytes of the current
    rune that are still to be passed over ([i += wid] in the source). *)
Fixpoint Map_from (mapping : Z -> Z) (skip : nat) (s : list ascii) : list ascii :=
  match s with
  | [] => []
  | c :: s' =>
    match skip with
    | S k => Map_from mapping k s'
    | O =>
      let '(r, wid) :=
        if utf8.RuneSelf <=? byte_val c then utf8.DecodeRune s
        else (byte_val c, 1%nat) in
      let r := mapping r in
      (if 0 <=? r then utf8.AppendRune r else []) ++
      Map_from mapping (wid - 1) s'
    end
  end.

Definition bytes_Map (mapping : Z -> Z) (s : list ascii) : list ascii :=
  Map_from mapping 0 s.

(** A case table that agrees with Go's [unicode.CaseRanges] on the runes
    U+0080..U+00FF (the Latin-1 capitals U+00C0..U+00DE, the multiplication
    sign U+00D7 apart, are 32 below their lower case) and on the runes
    that have no case, such as U+3042 and U+FFFD. It is used to evaluate
    the code at given names only; the theorems with a name as a variable
    hold for every table. *)
Definition LowerCase_latin1 (r : Z) : Z :=
  if (0xC0 <=? r) && (r <=? 0xDE) && negb (r =? 0xD7) then r + 32 else r.

(** ** Values shared by the components *)

(** A Go [error] value, by its message; [nil] is [None]. *)
Definition error : Type := string.

(** The result of running a piece of Go code that may panic. *)
Inductive outcome (A : Type) : Type :=
| Returns (a : A)
| Panics (msg : string).
Arguments Returns {A} a.
Arguments Panics {A} msg.

(** [defer func() { recover() }()]: a panic of the function body is
    stopped and the function returns the zero value of its result. *)
Definition deferred_recover {A} (zero : A) (o : outcome A) : outcome A :=
  match o with
  | Returns a => Returns a
  | Panics _ => Returns zero
  end.

(** A value held in an [interface{}], as the msgpack codec produces them. *)
#[warnings="-register-all"]
Inductive value : Type :=
| V_nil
| V_bool (b : bool)
| V_int64 (n : Z)
| V_uint64 (n : Z)
| V_string (s : string)
| V_bytes (b : list ascii)
| V_array (l : list value)
| V_map (m : list (string * value)).

(** Modelled from the spec: the record types [TinyFluentRecord] and
    [FluentRecordSet] are declared in another file of the package. "Record:
    { timestamp: integer, fields: mapping string->value }", "RecordSet:
    { tag: string, records: ordered sequence of Record }". *)
Record TinyFluentRecord : Type := {
  Timestamp : Z;
  Data : gmap string value
}.

Record FluentRecordSet : Type := {
  Tag : string;
  Records : list TinyFluentRecord
}.

(** ** Channels *)

(** A channel without buffer, by the values that were handed over on it
    and whether it is closed; [ch_closes] counts the [close] operations
    that were carried out on it. *)
Record chan (A : Type) : Type := {
  ch_closed : bool;
  ch_sent : list A;
  ch_closes : nat
}.
Arguments ch_closed {A} c.
Arguments ch_sent {A} c.
Arguments ch_closes {A} c.

Definition make_chan {A} : chan A :=
  {| ch_closed := false; ch_sent := []; ch_closes := 0%nat |}.

(** What another goroutine does to a channel on which a sender waits: it
    receives the value, or it closes the channel. *)
Inductive queue_event : Type :=
| Q_receive
| Q_close.

(** [ch <- x] on a channel without buffer. It panics when [ch] is closed.
    On an open channel the sender waits for what another goroutine does
    next, [other]: when that receives, the value is handed over and the
    send completes; when that closes the channel, the send panics; and when
    no goroutine does anything more ([None]), the send never completes,
    which is the result [None]. *)
Definition chan_send {A} (x : A) (ch : chan A) (other : option queue_event)
  : chan A * option (outcome unit) :=
  if ch_closed ch then (ch, Some (Panics "send on closed channel"))
  else
    match other with
    | Some Q_receive =>
      ({| ch_closed := false; ch_sent := ch_sent ch ++ [x];
          ch_closes := ch_closes ch |}, Some (Returns ()))
    | Some Q_close =>
      ({| ch_closed := true; ch_sent := ch_sent ch;
          ch_closes := S (ch_closes ch) |},
       Some (Panics "send on closed channel"))
    | None => (ch, None)
    end.

(** [close(ch)] panics when [ch] is closed already. *)
Definition chan_close {A} (ch : chan A) : chan A * outcome unit :=
  if ch_closed ch then (ch, Panics "close of closed channel")
  else ({| ch_closed := true; ch_sent := ch_sent ch;
           ch_closes := S (ch_closes ch) |}, Returns ()).

(** ** The output facade: Emit and Stop *)

(** The fields of [TDOutput] that [Emit], [Stop] and [getSpooler] read or
    write. [isShuttingDown] is the pointer used as a flag: [false] is
    [unsafe.Pointer(uintptr(0))], [true] is [unsafe.Pointer(uintptr(1))]. *)
Record TDOutput : Type := {
  databaseName : string;
  tableName : string;
  emitterChan : chan FluentRecordSet;
  isShuttingDown : bool
}.

Definition set_emitterChan (ch : chan FluentRecordSet) (output : TDOutput) : TDOutput :=
  {| databaseName := databaseName output; tableName := tableName output;
     emitterChan := ch; isShuttingDown := isShuttingDown output |}.

Definition set_isShuttingDown (b : bool) (output : TDOutput) : TDOutput :=
  {| databaseName := databaseName output; tableName := tableName output;
     emitterChan := emitterChan output; isShuttingDown := b |}.

(** The output as [NewTDOutput] builds it. *)
Definition NewTDOutput (databaseName tableName : string) : TDOutput :=
  {| databaseName := databaseName; tableName := tableName;
     emitterChan := make_chan; isShuttingDown := false |}.

(** [atomic.CompareAndSwapPointer(&flag, old, new)]: the new flag and
    whether the swap happened. *)
Definition CompareAndSwap (flag old new : bool) : bool * bool :=
  if Bool.eqb flag old then (new, true) else (flag, false).

(** The loop of [Emit]: one send per record set; a panic ends it, and a
    send that never completes leaves it waiting ([None]). [others] is what
    the other goroutines do to the queue, in order, while the sends of the
    loop wait: the emitter receives (line 254), or a call of [Stop] closes
    the queue (line 294). *)
Fixpoint Emit_loop (recordSets : list FluentRecordSet)
    (others : list queue_event) (ch : chan FluentRecordSet)
  : chan FluentRecordSet * option (outcome unit) :=
  match recordSets with
  | [] => (ch, Some (Returns ()))
  | recordSet :: rest =>
    match chan_send recordSet ch (head others) with
    | (ch', Some (Returns _)) => Emit_loop rest (tail others) ch'
    | (ch', Some (Panics msg)) => (ch', Some (Panics msg))
    | (ch', None) => (ch', None)
    end
  end.

(** [Emit]: [None] when the call never returns. When the queue was closed
    during the call, that was by a [Stop], which had set the flag before
    (line 293). *)
Definition Emit (recordSets : list FluentRecordSet)
    (others : list queue_event) (output : TDOutput)
  : TDOutput * option (outcome (option error)) :=
  let '(ch, r) := Emit_loop recordSets others (emitterChan output) in
  let stopped := negb (ch_closed (emitterChan output)) && ch_closed ch in
  (set_emitterChan ch
     (set_isShuttingDown (isShuttingDown output || stopped) output),
   match r with
   | Some r =>
     Some (deferred_recover None
             match r with
             | Returns _ => Returns None
             | Panics msg => Panics msg
             end)
   | None => None
   end).

Definition Stop (output : TDOutput) : TDOutput * outcome unit :=
  let '(flag, swapped) := CompareAndSwap (isShuttingDown output) false true in
  let output := set_isShuttingDown flag output in
  if swapped then
    let '(ch, r) := chan_close (emitterChan output) in
    (set_emitterChan ch output, r)
  else (output, Returns ()).

(** [n] calls of [Stop] one after the other, with what each returned. *)
Fixpoint Stop_times (n : nat) (output : TDOutput) : TDOutput * list (outcome unit) :=
  match n with
  | O => (output, [])
  | S n' =>
    let '(output', r) := Stop output in
    let '(output'', rs) := Stop_times n' output' in
    (output'', r :: rs)
  end.

(** ** package strings (Go standard library) *)

(** The part of [s] before the first byte [sep] and the part after it. *)
Fixpoint cut (sep : ascii) (s : string) : option (string * string) :=
  match s with
  | EmptyString => None
  | String c s' =>
    if Ascii.eqb c sep then Some (EmptyString, s')
    else
      match cut sep s' with
      | Some (before, after) => Some (String c before, after)
      | None => None
      end
  end.

(** [strings.SplitN(s, sep, n)] for a separator of one byte and [n >= 0]:
    at most [n] pieces, the last one the unsplit rest. *)
Fixpoint SplitN (s : string) (sep : ascii) (n : nat) : list string :=
  match n with
  | O => []
  | S O => [s]
  | S n' =>
    match cut sep s with
    | Some (before, after) => before :: SplitN after sep n'
    | None => [s]
    end
  end.

(** ** The spooler registry *)

(** A [*tdOutputSpooler]: the index of the spooler in the heap. *)
Definition ptr : Type := nat.

(** The fields of [tdOutputSpooler] that [newTDOutputSpooler] sets from
    its arguments; [sp_journal] is the journal that
    [journalGroup.GetJournal(key)] gives, named by its key. *)
Record tdOutputSpooler : Type := {
  sp_databaseName : string;
  sp_tableName : string;
  sp_key : string;
  sp_journal : string
}.

Definition newTDOutputSpooler (databaseName tableName key : string) : tdOutputSpooler :=
  {| sp_databaseName := databaseName; sp_tableName := tableName;
     sp_key := key; sp_journal := key |}.

(** The spooler daemon with the part of the world it acts on: the registry
    map, the wait group's counter, the spoolers allocated so far, the
    [spooler.handle] goroutines started (by spooler) and the logger's lines
    (level and message, a format string as it is written). *)
Record tdOutputSpoolerDaemon : Type := {
  spoolers : gmap string ptr;
  wg : nat;
  heap : list tdOutputSpooler;
  goroutines : list ptr;
  logger : list (string * string)
}.

Definition newTDOutputSpoolerDaemon : tdOutputSpoolerDaemon :=
  {| spoolers := ∅; wg := 0%nat; heap := []; goroutines := []; logger := [] |}.

Definition log (level msg : string) (daemon : tdOutputSpoolerDaemon)
  : tdOutputSpoolerDaemon :=
  {| spoolers := spoolers daemon; wg := wg daemon; heap := heap daemon;
     goroutines := goroutines daemon;
     logger := logger daemon ++ [(level, msg)] |}.

(** [spawnSpooler], run under [spoolersMtx] (one call at a time). *)
Definition spawnSpooler (databaseName tableName key : string)
    (daemon : tdOutputSpoolerDaemon) : tdOutputSpoolerDaemon * ptr :=
  match spoolers daemon !! key with
  | Some spooler => (daemon, spooler)
  | None =>
    let spooler := newTDOutputSpooler databaseName tableName key in
    let p : ptr := length (heap daemon) in
    let daemon := log "NOTICE" ("Spawning spooler " +:+ sp_key spooler) daemon in
    ({| spoolers := <[sp_key spooler := p]> (spoolers daemon);
        wg := S (wg daemon);
        heap := heap daemon ++ [spooler];
        goroutines := goroutines daemon ++ [p];
        logger := logger daemon |}, p)
  end.

(** The spoolers of the heap that were created for [key]. *)
Definition created_for (key : string) (daemon : tdOutputSpoolerDaemon)
  : list tdOutputSpooler :=
  filter (λ sp, sp_key sp = key) (heap daemon).

(** Calls of [spawnSpooler] one after the other, with the spooler each
    returned. *)
Fixpoint spawn_all (requests : list (string * string * string))
    (daemon : tdOutputSpoolerDaemon) : tdOutputSpoolerDaemon * list ptr :=
  match requests with
  | [] => (daemon, [])
  | (databaseName, tableName, key) :: rest =>
    let '(daemon', p) := spawnSpooler databaseName tableName key daemon in
    let '(daemon'', ps) := spawn_all rest daemon' in
    (daemon'', p :: ps)
  end.

(** ** Destination resolution *)

(** Lines 213-231 of [getSpooler]: the names before normalization. *)
Definition resolve (output : TDOutput) (tag : string) : string * string :=
  let databaseName := databaseName output in
  let tableName := tableName output in
  if String.eqb databaseName "*" then
    if String.eqb tableName "*" then
      let c := SplitN tag "." 2 in
      match c with
      | [c0] => (databaseName, c0)
      | [c0; c1] => (c0, c1)
      | _ => (databaseName, tableName)
      end
    else (tag, tableName)
  else
    if String.eqb tableName "*" then (databaseName, tag)
    else (databaseName, tableName).

(** The character set of the design document: [a-z0-9_]. *)
Definition in_name_charset (c : ascii) : bool :=
  let c := byte_val c in
  ((97 <=? c) && (c <=? 122)) || ((48 <=? c) && (c <=? 57)) || (c =? 95).

Definition is_ascii (c : ascii) : bool := byte_val c <? 0x80.

(** A byte above ASCII, such as the continuation bytes of a UTF-8
    encoding. *)
Definition continues (c : ascii) : Prop := is_ascii c = false.

(** The lower case of an ASCII byte. *)
Definition lower_byte (c : ascii) : ascii :=
  if (65 <=? byte_val c) && (byte_val c <=? 90)
  then byte_of (byte_val c + 32) else c.

Section Normalizer.

(** [unicode.To(unicode.LowerCase, r)] for a rune above ASCII: the lookup
    in the case tables of Go's [unicode] package. *)
Variable LowerCase : Z -> Z.

(** [unicode.ToLower]. *)
Definition unicode_ToLower (r : Z) : Z :=
  if r <=? 0x7F then
    if (65 <=? r) && (r <=? 90) then r + (97 - 65) else r
  else LowerCase r.

(** [bytes.ToLower]. *)
Definition bytes_ToLower (s : list ascii) : list ascii :=
  bytes_Map unicode_ToLower s.

(** The test of line 127, before its negation. *)
Definition name_byte_kept (c : ascii) : bool :=
  let c := byte_val c in
  ((97 <=? c) || (c <=? 122)) || ((48 <=? c) && (c <=? 57)) || (c =? 95).

(** The loop of lines 126-131, from index [i], for [n] more elements. *)
Fixpoint replace_loop (n i : nat) (name_ : list ascii) : list ascii :=
  match n with
  | O => name_
  | S n' =>
    match name_ !! i with
    | Some c =>
      let c := if negb (name_byte_kept c) then "_"%char else c in
      replace_loop n' (S i) (<[i := c]> name_)
    | None => name_
    end
  end.

Definition normalizeDatabaseName (name : string) : string * option error :=
  let name_ := bytes_of name in
  if (length name_ =? 0)%nat then ("", Some "Empty name is not allowed")
  else
    let name_ :=
      if (length name_ <? 3)%nat
      then name_ ++ take (3 - String.length name) (bytes_of "___")
      else name_ in
    let name_ :=
      if (255 <? length name_)%nat
      then take 253 name_ ++ bytes_of "__"
      else name_ in
    let name_ := bytes_ToLower name_ in
    let name_ := replace_loop (length name_) 0 name_ in
    (string_of_list_ascii name_, None).

Definition normalizeTableName (name : string) : string * option error :=
  normalizeDatabaseName name.

(** [getSpooler]: the spooler of [tag], or [nil] and an error. *)
Definition getSpooler (output : TDOutput) (tag : string)
    (daemon : tdOutputSpoolerDaemon)
  : tdOutputSpoolerDaemon * (option ptr * option error) :=
  let '(databaseName, tableName) := resolve output tag in
  match normalizeDatabaseName databaseName with
  | (_, Some err) => (daemon, (None, Some err))
  | (databaseName, None) =>
    match normalizeTableName tableName with
    | (_, Some err) => (daemon, (None, Some err))
    | (tableName, None) =>
      let key := databaseName +:+ "." +:+ tableName in
      let '(daemon', spooler) := spawnSpooler databaseName tableName key daemon in
      (daemon', (Some spooler, None))
    end
  end.

End Normalizer.

(** ** The record encoder *)

(** The map [e] that [encodeRecords] builds for one record: it starts as
    [{"time": record.Timestamp}] and every pair of [record.Data] is stored
    into it (Go ranges over a map in no fixed order). *)
Definition record_entry (record : TinyFluentRecord) : gmap string value :=
  map_fold (λ k v e, <[k := v]> e)
           {["time" := V_uint64 (Timestamp record)]} (Data record).

(** A [codec.Encoder] with the buffer it writes to; [enc_encoded] lists the
    values it was asked to encode, in order. *)
Record Encoder : Type := {
  enc_buffer : list ascii;
  enc_encoded : list (gmap string value)
}.

(** [codec.NewEncoder(&buffer, codec)] on a buffer that was just reset. *)
Definition NewEncoder : Encoder := {| enc_buffer := []; enc_encoded := [] |}.

(** An encoding that accepts every map and writes its number of entries,
    to evaluate examples with. *)
Definition msgpack_sizes (e : gmap string value) : list ascii * option error :=
  ([byte_of (Z.of_nat (size e))], None).

Section Encoder.

(** The msgpack codec on one map: the bytes it writes and its error. *)
Variable msgpack : gmap string value -> list ascii * option error.

Definition Encode (e : gmap string value) (encoder : Encoder)
  : Encoder * option error :=
  let '(out, err) := msgpack e in
  ({| enc_buffer := enc_buffer encoder ++ out;
      enc_encoded := enc_encoded encoder ++ [e] |}, err).

Fixpoint encodeRecords (encoder : Encoder) (records : list TinyFluentRecord)
  : Encoder * option error :=
  match records with
  | [] => (encoder, None)
  | record :: rest =>
    let e := record_entry record in
    match Encode e encoder with
    | (encoder', Some err) => (encoder', Some err)
    | (encoder', None) => encodeRecords encoder' rest
    end
  end.

End Encoder.

(** ** The emitter *)

(** What the emitter goroutine acts on: the daemon and the journals, each
    journal by what was written to it. *)
Record emitter_state : Type := {
  em_daemon : tdOutputSpoolerDaemon;
  em_journals : gmap string (list (list ascii))
}.

Section Emitter.

Variable LowerCase : Z -> Z.
Variable msgpack : gmap string value -> list ascii * option error.
(** The error of [journal.Write(data)], if it fails, with the entries that
    have reached the journal all the same. *)
Variable Write_error :
  string -> list ascii -> option (error * list (list ascii)).

(** Modelled from the spec: [Journal.Write] is defined in another file of
    the package. "Journal.Write(bytes) -> error", "Journal: append-only
    per-destination buffer", "supports concurrent-safe Write(bytes)
    appends". A write that succeeds appends the data to its journal; the
    spec does not say what a write that fails leaves in the journal, so
    that is left to [Write_error]; a write touches no other journal. *)
Definition journal_Write (journal : string) (data : list ascii)
    (journals : gmap string (list (list ascii)))
  : gmap string (list (list ascii)) * option error :=
  match Write_error journal data with
  | Some (err, partial) =>
    (<[journal := default [] (journals !! journal) ++ partial]> journals,
     Some err)
  | None =>
    (<[journal := default [] (journals !! journal) ++ [data]]> journals, None)
  end.

(** The function literal of lines 257-268, for one record set. *)
Definition emit_recordSet (output : TDOutput) (recordSet : FluentRecordSet)
    (st : emitter_state) : emitter_state * option error :=
  let encoder := NewEncoder in
  match getSpooler LowerCase output (Tag recordSet) (em_daemon st) with
  | (daemon, (_, Some err)) =>
    ({| em_daemon := daemon; em_journals := em_journals st |}, Some err)
  | (daemon, (spooler, None)) =>
    match encodeRecords msgpack encoder (Records recordSet) with
    | (_, Some err) =>
      ({| em_daemon := daemon; em_journals := em_journals st |}, Some err)
    | (encoder, None) =>
      let daemon := log "DEBUG" "Emitter processed %d entries" daemon in
      match spooler ≫= (λ p, heap daemon !! p) with
      | Some sp =>
        let '(journals, err) :=
          journal_Write (sp_journal sp) (enc_buffer encoder) (em_journals st) in
        ({| em_daemon := daemon; em_journals := journals |}, err)
      | None =>
        ({| em_daemon := daemon; em_journals := em_journals st |},
         Some "invalid memory address or nil pointer dereference")
      end
    end
  end.

(** The loop of [spawnEmitter] over the record sets received from the
    queue until it is closed: an error is logged and the loop goes on. *)
Fixpoint emitter_loop (output : TDOutput) (queue : list FluentRecordSet)
    (st : emitter_state) : emitter_state :=
  match queue with
  | [] => st
  | recordSet :: rest =>
    let '(st', err) := emit_recordSet output recordSet st in
    let st'' :=
      match err with
      | Some err =>
        {| em_daemon := log "ERROR" err (em_daemon st');
           em_journals := em_journals st' |}
      | None => st'
      end in
    emitter_loop output rest st''
  end.

End Emitter.

(** ** The flush handler of a spooler *)

(** Modelled from the spec: the journal and its chunks are declared in
    another file of the package. "Chunk.Id() -> string, Chunk.String() ->
    string (diagnostic), Chunk.Dispose()". *)
Record JournalChunk : Type := {
  chunk_Id : string;
  chunk_String : string
}.

Record TempFileRandomAccessStoreFactory : Type := {
  tf_Dir : string;
  tf_Prefix : string
}.

(** The value [NewCompressingBlob] is called with. *)
Record CompressingBlob : Type := {
  blob_chunk : JournalChunk;
  blob_bufferSize : Z;
  blob_level : Z;
  blob_tempFactory : TempFileRandomAccessStoreFactory
}.

Definition NewCompressingBlob (chunk : JournalChunk) (bufferSize level : Z)
    (tempFactory : TempFileRandomAccessStoreFactory) : CompressingBlob :=
  {| blob_chunk := chunk; blob_bufferSize := bufferSize; blob_level := level;
     blob_tempFactory := tempFactory |}.

Definition gzip_BestSpeed : Z := 1.

(** What the handler does to the world, in order. *)
Inductive event : Type :=
| Ev_log (level msg : string)
| Ev_Import (databaseName tableName format : string) (blob : CompressingBlob)
            (uniqueId : string)
| Ev_Dispose (chunk : JournalChunk).

(** A computation that acts on the world and returns or panics. *)
Definition M (A : Type) : Type := list event * outcome A.

Definition ret {A} (a : A) : M A := ([], Returns a).

Definition bind {A B} (m : M A) (k : A -> M B) : M B :=
  match m with
  | (t, Returns a) => let '(t', r) := k a in (t ++ t', r)
  | (t, Panics msg) => (t, Panics msg)
  end.

Definition tell (e : event) : M unit := ([e], Returns ()).

(** [defer action]: [action] runs when the body is left, by a return or by
    a panic. *)
Definition defer {A} (action : event) (body : M A) : M A :=
  let '(t, r) := body in (t ++ [action], r).

#[export] Instance M_ret : MRet M := @ret.
#[export] Instance M_bind : MBind M := λ A B k m, bind m k.

Definition is_Dispose (chunk : JournalChunk) (e : event) : bool :=
  match e with
  | Ev_Dispose c =>
    String.eqb (chunk_Id c) (chunk_Id chunk)
    && String.eqb (chunk_String c) (chunk_String chunk)
  | _ => false
  end.

(** How often [chunk.Dispose()] was called. *)
Definition disposals (chunk : JournalChunk) (t : list event) : nat :=
  length (filter (λ e, is_Dispose chunk e = true) t).

Section Spooler.

(** The result of [client.Import] on its arguments. *)
Variable td_Import :
  string -> string -> string -> CompressingBlob -> string -> outcome (option error).

Definition Import (databaseName tableName format : string)
    (blob : CompressingBlob) (uniqueId : string) : M (option error) :=
  ([Ev_Import databaseName tableName format blob uniqueId],
   td_Import databaseName tableName format blob uniqueId).

(** The function literal of lines 87-103, which [journal.Flush] calls on
    every chunk. *)
Definition flush_handler (tempFactory : TempFileRandomAccessStoreFactory)
    (spooler : tdOutputSpooler) (chunk : JournalChunk) : M (option error) :=
  defer (Ev_Dispose chunk)
    (tell (Ev_log "INFO" ("Flushing chunk " +:+ chunk_String chunk));;
     err ← Import (sp_databaseName spooler) (sp_tableName spooler)
                  "msgpack.gz"
                  (NewCompressingBlob chunk 16777216 gzip_BestSpeed tempFactory)
                  (chunk_Id chunk);
     mret err).

End Spooler.

(** Modelled from the spec: [Journal.Flush] is defined in another file of
    the package. "Journal.Flush(handler: Chunk -> error) -> error: delivers
    zero-or-more Chunks since the last successful flush; a Chunk is retained
    in the journal if handler returns an error for it." The result is what
    happened and the chunks the journal retains. *)
Fixpoint Journal_Flush (handler : JournalChunk -> M (option error))
    (chunks : list JournalChunk) : list event * list JournalChunk :=
  match chunks with
  | [] => ([], [])
  | chunk :: rest =>
    let '(t, r) := handler chunk in
    let '(t', retained) := Journal_Flush handler rest in
    (t ++ t',
     match r with
     | Returns None => retained
     | _ => chunk :: retained
     end)
  end.

(** ** Concurrent calls of Stop *)

(** Where a goroutine that called [Stop] stands: before the
    compare-and-swap, after winning it and before [close], or returned. *)
Inductive stop_pc : Type :=
| Before_swap
| Before_close
| Stopped (r : outcome unit).

Record stopping : Type := {
  st_output : TDOutput;
  st_callers : list stop_pc
}.

(** One atomic step of caller [i]; a caller that has returned does
    nothing. *)
Definition stop_step (i : nat) (s : stopping) : stopping :=
  match st_callers s !! i with
  | Some Before_swap =>
    let '(flag, swapped) :=
      CompareAndSwap (isShuttingDown (st_output s)) false true in
    {| st_output := set_isShuttingDown flag (st_output s);
       st_callers :=
         <[i := if swapped then Before_close else Stopped (Returns ())]>
           (st_callers s) |}
  | Some Before_close =>
    let '(ch, r) := chan_close (emitterChan (st_output s)) in
    {| st_output := set_emitterChan ch (st_output s);
       st_callers := <[i := Stopped r]> (st_callers s) |}
  | _ => s
  end.

(** The callers' steps in the order of [schedule]. *)
Definition stop_schedule (schedule : list nat) (s : stopping) : stopping :=
  foldl (λ s i, stop_step i s) s schedule.

(** [n] goroutines that have just called [Stop]. *)
Definition stop_start (n : nat) (output : TDOutput) : stopping :=
  {| st_output := output; st_callers := replicate n Before_swap |}.

Definition is_closing (pc : stop_pc) : bool :=
  match pc with
  | Before_close => true
  | _ => false
  end.

Definition has_panicked (pc : stop_pc) : bool :=
  match pc with
  | Stopped (Panics _) => true
  | _ => false
  end.

(** How many callers stand between the swap and the [close]. *)
Definition closing (s : stopping) : nat :=
  length (filter (λ pc, is_closing pc = true) (st_callers s)).

(** What holds of every state that concurrent calls of [Stop] reach, for a
    channel that had been closed [c0] times when they started. *)
Definition stop_inv (c0 : nat) (s : stopping) : Prop :=
  Forall (λ pc, has_panicked pc = false) (st_callers s) ∧
  match isShuttingDown (st_output s), ch_closed (emitterChan (st_output s)) with
  | false, false =>
    closing s = 0%nat ∧ ch_closes (emitterChan (st_output s)) = c0
  | true, false =>
    closing s = 1%nat ∧ ch_closes (emitterChan (st_output s)) = c0
  | true, true =>
    closing s = 0%nat ∧ ch_closes (emitterChan (st_output s)) = S c0
  | false, true => False
  end.

(** ** Inputs of the examples *)

(** The name of the single byte 0xFF, which is not valid UTF-8. *)
Definition name_0xFF : string := String "255" "".

(** A name of 256 bytes 0xFF. *)
Definition name_long_0xFF : string :=
  string_of_list_ascii (replicate 256 "255"%char).

(** A record with a field called "time". *)
Definition record_with_time : TinyFluentRecord :=
  {| Timestamp := 1; Data := {["time" := V_string "noon"]} |}.

(** A record without such a field. *)
Definition record_plain : TinyFluentRecord :=
  {| Timestamp := 7; Data := {["msg" := V_string "hi"]} |}.

Definition recordSet_example : FluentRecordSet :=
  {| Tag := "app.web"; Records := [record_plain] |}.

Definition chunk_example : JournalChunk :=
  {| chunk_Id := "c1"; chunk_String := "chunk c1" |}.

(** An [Import] that the remote end refuses. *)
Definition Import_refused (databaseName tableName format : string)
    (blob : CompressingBlob) (uniqueId : string) : outcome (option error) :=
  Returns (Some "403 Forbidden").

(** ** Further parts of the output *)

(** *** Names and keys *)

(** An upper-case ASCII letter. *)
Definition is_upper (c : ascii) : bool :=
  (65 <=? byte_val c) && (byte_val c <=? 90).

(** The key [getSpooler] computes for [tag] (line 240), when neither
    resolved name is empty. *)
Definition destination_key (LowerCase : Z -> Z) (output : TDOutput)
    (tag : string) : string :=
  (normalizeDatabaseName LowerCase (resolve output tag).1).1 +:+ "." +:+
  (normalizeTableName LowerCase (resolve output tag).2).1.

(** The registry as [spawnSpooler] keeps it: an entry points to a spooler
    that was made for its key, every spooler made is the entry of its key,
    there are as many entries as spoolers, and the wait group counts one
    started goroutine per spooler. *)
Definition registry_wf (daemon : tdOutputSpoolerDaemon) : Prop :=
  (∀ (key : string) (p : ptr),
     spoolers daemon !! key = Some p →
     ∃ databaseName tableName,
       heap daemon !! p = Some (newTDOutputSpooler databaseName tableName key)) ∧
  (∀ (p : ptr) (sp : tdOutputSpooler),
     heap daemon !! p = Some sp → spoolers daemon !! sp_key sp = Some p) ∧
  size (spoolers daemon) = length (heap daemon) ∧
  wg daemon = length (heap daemon) ∧
  goroutines daemon = seq 0 (length (heap daemon)).

(** *** What the emitter writes *)

(** The bytes the codec writes for [records], one after the other. *)
Definition encoded_bytes (msgpack : gmap string value -> list ascii * option error)
    (records : list TinyFluentRecord) : list ascii :=
  concat ((λ record, (msgpack (record_entry record)).1) <$> records).

(** *** The shutdown signal of the spoolers *)

(** The fields [isShuttingDown] and [shutdownChan] of a [tdOutputSpooler]:
    the flag ([false] is the nil pointer a new spooler has), and what the
    channel of capacity 1 ([make(chan struct{}, 1)]) holds. *)
Record spooler_signal : Type := {
  sig_isShuttingDown : bool;
  sig_shutdownChan : list unit
}.

(** A send on a buffered channel: [None] when the buffer is full and the
    sender has to wait. *)
Definition buffered_send {A} (capacity : nat) (x : A) (buffer : list A)
  : option (list A) :=
  if (length buffer <? capacity)%nat then Some (buffer ++ [x]) else None.

(** The body of the loop of [tdOutputSpoolerDaemon.cleanup] (lines
    173-175) for the spooler at [p]; the signals are listed by the
    spoolers' pointers. [None]: the daemon does not get past this spooler
    (its send waits, or the pointer is not of a spooler). *)
Definition cleanup_signal (p : ptr) (signals : list spooler_signal)
  : option (list spooler_signal) :=
  match signals !! p with
  | None => None
  | Some sg =>
    let '(flag, swapped) := CompareAndSwap (sig_isShuttingDown sg) false true in
    if swapped then
      match buffered_send 1 () (sig_shutdownChan sg) with
      | Some buffer =>
        Some (<[p := {| sig_isShuttingDown := flag;
                        sig_shutdownChan := buffer |}]> signals)
      | None => None
      end
    else Some signals
  end.

(** The loop of lines 172-176 over the registry, run under [spoolersMtx]
    (Go ranges over a map in no fixed order). *)
Definition cleanup_signals (registry : gmap string ptr)
    (signals : list spooler_signal) : option (list spooler_signal) :=
  map_fold (λ _ p acc, acc ≫= cleanup_signal p) (Some signals) registry.

(** A spooler after the daemon's loop has passed it. *)
Definition signalled (sg : spooler_signal) : spooler_signal :=
  if sig_isShuttingDown sg then sg
  else {| sig_isShuttingDown := true;
          sig_shutdownChan := sig_shutdownChan sg ++ [()] |}.

(** *** The loop of a spooler *)

(** The case a [select] of [tdOutputSpooler.handle] takes. *)
Inductive select_case : Type :=
| Case_tick
| Case_shutdown.

(** What a spooler does, in order. *)
Inductive spooler_event : Type :=
| Sp_log (level msg : string)
| Sp_Flush
| Sp_ticker_Stop
| Sp_journal_Dispose
| Sp_wg_Done.

Section SpoolerLoop.

(** The journal of the spooler and its [Flush] with the handler of lines
    87-103: the journal afterwards and the error. *)
Variable journal : Type.
Variable Flush : journal -> journal * option error.

(** The loop of lines 83-110 over the cases its [select]s take; the
    boolean tells whether the loop was left. *)
Fixpoint spooler_loop (cases : list select_case) (j : journal)
  : journal * list spooler_event * bool :=
  match cases with
  | [] => (j, [], false)
  | Case_tick :: rest =>
    let '(j', err) := Flush j in
    let '(j'', t, ended) := spooler_loop rest j' in
    (j'',
     Sp_log "NOTICE" "Flushing..." :: Sp_Flush ::
     match err with
     | Some err =>
       [Sp_log "ERROR" ("Error during reading from the journal: " +:+ err)]
     | None => []
     end ++ t,
     ended)
  | Case_shutdown :: _ => (j, [], true)
  end.

(** [tdOutputSpooler.cleanup] (lines 74-78). *)
Definition spooler_cleanup : list spooler_event :=
  [Sp_ticker_Stop; Sp_journal_Dispose; Sp_wg_Done].

(** [tdOutputSpooler.handle]: the deferred [cleanup] runs when the
    function returns. *)
Definition spooler_handle (cases : list select_case) (j : journal)
  : journal * list spooler_event * bool :=
  let '(j', t, ended) := spooler_loop cases j in
  (j',
   Sp_log "NOTICE" "Spooler started" :: t ++
   (if ended then Sp_log "NOTICE" "Spooler ended" :: spooler_cleanup else []),
   ended).

(** [n] calls of [Flush] one after the other. *)
Fixpoint Flush_times (n : nat) (j : journal) : journal :=
  match n with
  | O => j
  | S n' => Flush_times n' (Flush j).1
  end.

End SpoolerLoop.

(** The ticks taken before the first shutdown signal. *)
Fixpoint ticks_before_shutdown (cases : list select_case) : nat :=
  match cases with
  | Case_tick :: rest => S (ticks_before_shutdown rest)
  | _ => 0%nat
  end.

Definition is_shutdown (c : select_case) : bool :=
  match c with
  | Case_shutdown => true
  | Case_tick => false
  end.

(** Whether two events are the same call, for the calls without
    arguments. *)
Definition same_call (e e' : spooler_event) : bool :=
  match e, e' with
  | Sp_Flush, Sp_Flush
  | Sp_ticker_Stop, Sp_ticker_Stop
  | Sp_journal_Dispose, Sp_journal_Dispose
  | Sp_wg_Done, Sp_wg_Done => true
  | _, _ => false
  end.

(** How often the call [e] occurs in a spooler's trace. *)
Definition sp_count (e : spooler_event) (t : list spooler_event) : nat :=
  length (filter (λ e', same_call e e' = true) t).

(** A journal that counts its flushes and fails every second one. *)
Definition Flush_counting (j : nat) : nat * option error :=
  (S j, if Nat.even j then None else Some "disk full").

(** A codec that refuses maps with more than two entries. *)
Definition msgpack_small (e : gmap string value) : list ascii * option error :=
  if (size e <=? 2)%nat then ([byte_of (Z.of_nat (size e))], None)
  else ([], Some "map too large").

(** A record with two fields. *)
Definition record_wide : TinyFluentRecord :=
  {| Timestamp := 9; Data := {["a" := V_nil; "b" := V_bool true]} |}.

(** A record set with a record that [msgpack_small] refuses. *)
Definition recordSet_wide : FluentRecordSet :=
  {| Tag := "app.web"; Records := [record_plain; record_wide; record_plain] |}.

(** A journal write that always succeeds, and one that fails after half
    of the data has reached the journal. *)
Definition Write_ok (journal : string) (data : list ascii)
  : option (error * list (list ascii)) := None.
Definition Write_fails (journal : string) (data : list ascii)
  : option (error * list (list ascii)) :=
  Some ("disk full", [take (Nat.div2 (length data)) data]).

(** A name of 86 times U+3042 (HIRAGANA LETTER A, the bytes E3 81 82):
    258 bytes of valid UTF-8. *)
Definition name_hiragana : string :=
  string_of_list_ascii
    (concat (replicate 86 ["227"%char; "129"%char; "130"%char])).

(** * Properties *)

(** ** Bytes *)

Lemma byte_val_range (c : ascii) : 0 <= byte_val c < 256.
Proof.
  unfold byte_val. pose proof (N_ascii_bounded c). lia.
Qed.

Lemma byte_of_val (c : ascii) : byte_of (byte_val c) = c.
Proof.
  unfold byte_of, byte_val. pose proof (N_ascii_bounded c).
  rewrite Z.mod_small by lia. rewrite N2Z.id. apply ascii_N_embedding.
Qed.

Lemma length_bytes_of (s : string) : length (bytes_of s) = String.length s.
Proof. induction s; simpl; congruence. Qed.

Lemma name_byte_kept_true (c : ascii) : name_byte_kept c = true.
Proof.
  unfold name_byte_kept.
  destruct (Z.leb_spec 97 (byte_val c)); [done|].
  destruct (Z.leb_spec (byte_val c) 122); [done|lia].
Qed.

Lemma replace_loop_id (n i : nat) (name_ : list ascii) :
  replace_loop n i name_ = name_.
Proof.
  revert i name_. induction n as [|n IH]; intros i name_; simpl; [done|].
  destruct (name_ !! i) as [c|] eqn:Hc; [|done].
  rewrite name_byte_kept_true. simpl. rewrite list_insert_id by done. apply IH.
Qed.



Lemma Map_from_ascii_cons LowerCase (c : ascii) (s : list ascii) :
  is_ascii c = true ->
  Map_from (unicode_ToLower LowerCase) 0 (c :: s) =
  lower_byte c :: Map_from (unicode_ToLower LowerCase) 0 s.
Proof.
  unfold is_ascii. intros Hc%Z.ltb_lt. pose proof (byte_val_range c).
  cbn [Map_from]. unfold utf8.RuneSelf.
  destruct (Z.leb_spec 128 (byte_val c)); [lia|].
  unfold unicode_ToLower, lower_byte.
  destruct (Z.leb_spec (byte_val c) 127); [|lia].
  destruct ((65 <=? byte_val c) && (byte_val c <=? 90)) eqn:Hup.
  - apply andb_prop in Hup as [?%Z.leb_le ?%Z.leb_le].
    destruct (Z.leb_spec 0 (byte_val c + (97 - 65))); [|lia].
    unfold utf8.AppendRune, utf8.rune1Max.
    destruct (Z.leb_spec (byte_val c + (97 - 65)) 127); [|lia].
    simpl. do 2 f_equal.
  - destruct (Z.leb_spec 0 (byte_val c)); [|lia].
    unfold utf8.AppendRune, utf8.rune1Max.
    destruct (Z.leb_spec (byte_val c) 127); [|lia].
    simpl. by rewrite byte_of_val.
Qed.

Lemma bytes_ToLower_ascii LowerCase (s : list ascii) :
  forallb is_ascii s = true ->
  bytes_ToLower LowerCase s = map lower_byte s.
Proof.
  unfold bytes_ToLower, bytes_Map.
  induction s as [|c s IH]; [done|].
  simpl forallb. intros [Hc Hs]%andb_prop.
  rewrite Map_from_ascii_cons by done. simpl. f_equal. by apply IH.
Qed.


Lemma first_cases (p0 : Z) :
  utf8.first p0 ∈ [utf8.as_; utf8.xx; utf8.s1; utf8.s2; utf8.s3; utf8.s4;
                   utf8.s5; utf8.s6; utf8.s7].
Proof.
  unfold utf8.first. repeat case_match; set_solver.
Qed.

Ltac first_byte c :=
  let H := fresh "Hfirst" in
  pose proof (first_cases (byte_val c)) as H;
  repeat (apply elem_of_cons in H as [H|H]);
  [rewrite H .. | by apply elem_of_nil in H].


Ltac bytes_lia :=
  unfold continues, is_ascii, utf8.locb, utf8.hicb, utf8.as_, utf8.xx,
    utf8.s1, utf8.s2, utf8.s3, utf8.s4, utf8.s5, utf8.s6, utf8.s7 in *;
  repeat match goal with
  | H : (_ || _) = true |- _ => apply orb_prop in H as [H|H]
  | H : (_ || _) = false |- _ => apply orb_false_elim in H as [? ?]
  | H : (_ <? _) = true |- _ => apply Z.ltb_lt in H
  | H : (_ <? _) = false |- _ => apply Z.ltb_ge in H
  | H : (_ <=? _) = true |- _ => apply Z.leb_le in H
  | H : (_ <=? _) = false |- _ => apply Z.leb_gt in H
  | H : (_ =? _) = true |- _ => apply Z.eqb_eq in H
  | H : (_ =? _) = false |- _ => apply Z.eqb_neq in H
  | |- (_ <? _) = false => apply Z.ltb_ge
  | |- (_ <? _) = true => apply Z.ltb_lt
  end; try lia.

Ltac decode_cases Hd :=
  repeat (match type of Hd with
          | context [match ?l with [] => _ | _ :: _ => _ end] => destruct l
          | context [if ?b then _ else _] => destruct b eqn:?
          end; cbn -[Z.ltb Z.leb Z.eqb Z.lor Z.land Z.shiftl] in Hd).

(** Evaluates what [DecodeRune] computes from the first byte alone. *)
Ltac first_byte_info :=
  repeat match goal with
  | |- context [utf8.acceptRanges ?a] =>
    let v := eval vm_compute in (utf8.acceptRanges a) in
    change (utf8.acceptRanges a) with v
  | |- context [Z.to_nat (Z.land ?x 7)] =>
    let v := eval vm_compute in (Z.to_nat (Z.land x 7)) in
    change (Z.to_nat (Z.land x 7)) with v
  | |- context [utf8.as_ <=? ?x] =>
    let v := eval vm_compute in (utf8.as_ <=? x) in
    change (utf8.as_ <=? x) with v
  | |- context [?x =? utf8.xx] =>
    let v := eval vm_compute in (x =? utf8.xx) in
    change (x =? utf8.xx) with v
  end.

Lemma DecodeRune_width (c : ascii) (s : list ascii) (r : Z) (wid : nat) :
  utf8.DecodeRune (c :: s) = (r, wid) ->
  (wid - 1 <= length s)%nat ∧ Forall continues (take (wid - 1) s).
Proof.
  unfold utf8.DecodeRune. first_byte c; first_byte_info;
    cbn -[Z.ltb Z.leb Z.eqb Z.lor Z.land Z.shiftl];
    intros Hd; decode_cases Hd;
    injection Hd as <- <-; cbn [Nat.sub take length];
    (split; [lia|]); repeat constructor; bytes_lia.
Qed.

Lemma DecodeRune_app_ascii (c : ascii) (s t : list ascii) :
  forallb is_ascii t = true ->
  utf8.DecodeRune (c :: s ++ t) = utf8.DecodeRune (c :: s).
Proof.
  intros Ht.
  assert (Ht0 : match t with [] => True | c :: _ => byte_val c < 128 end).
  { destruct t as [|c0 t]; [done|]. simpl in Ht.
    apply andb_prop in Ht as [Ht _]. bytes_lia. }
  clear Ht.
  unfold utf8.DecodeRune. first_byte c; first_byte_info;
    cbn -[Z.ltb Z.leb Z.eqb Z.lor Z.land Z.shiftl]; try done.
  all: destruct s as [|c1 [|c2 [|c3 s]]];
    cbn -[Z.ltb Z.leb Z.eqb Z.lor Z.land Z.shiftl]; try done.
  all: repeat (case_match; cbn -[Z.ltb Z.leb Z.eqb Z.lor Z.land Z.shiftl] in *);
    simplify_eq; try done; try (exfalso; bytes_lia; fail).
Qed.

Lemma Map_from_app_ascii (mapping : Z -> Z) (t : list ascii) :
  forallb is_ascii t = true ->
  ∀ (s : list ascii) (skip : nat),
    (skip <= length s)%nat -> Forall continues (take skip s) ->
    Map_from mapping skip (s ++ t) = Map_from mapping skip s ++ Map_from mapping 0 t.
Proof.
  intros Ht. induction s as [|c s IH]; intros skip Hlen Hskip.
  - simpl in Hlen. assert (skip = 0%nat) as -> by lia. done.
  - destruct skip as [|k]; cbn [app Map_from].
    + destruct (utf8.RuneSelf <=? byte_val c) eqn:Hc.
      * rewrite DecodeRune_app_ascii by done.
        destruct (utf8.DecodeRune (c :: s)) as [r wid] eqn:Hd.
        apply DecodeRune_width in Hd as [Hw Hcont].
        rewrite IH by done. by rewrite app_assoc.
      * rewrite IH; [|simpl; lia|constructor]. by rewrite app_assoc.
    + simpl in Hlen, Hskip. apply Forall_cons in Hskip as [_ Hskip].
      apply IH; [lia | done].
Qed.

Lemma bytes_ToLower_app_ascii LowerCase (s t : list ascii) :
  forallb is_ascii t = true ->
  bytes_ToLower LowerCase (s ++ t) = bytes_ToLower LowerCase s ++ map lower_byte t.
Proof.
  intros Ht. unfold bytes_ToLower, bytes_Map.
  rewrite Map_from_app_ascii; [|done|lia|constructor].
  f_equal. by apply bytes_ToLower_ascii.
Qed.


Lemma length_string_of_bytes (l : list ascii) :
  String.length (string_of_list_ascii l) = length l.
Proof. induction l; simpl; congruence. Qed.

Lemma string_of_bytes_app (l l' : list ascii) :
  string_of_list_ascii (l ++ l') =
  string_of_list_ascii l +:+ string_of_list_ascii l'.
Proof. induction l as [|c l IH]; simpl; [done|]. by rewrite IH. Qed.

Lemma bytes_of_empty (name : string) : length (bytes_of name) = 0%nat ↔ name = "".
Proof. destruct name; simpl; split; intros; congruence. Qed.

(** What is left of [normalizeDatabaseName] once the replacement loop is
    known to change nothing. *)
Lemma normalizeDatabaseName_unfold LowerCase (name : string) :
  normalizeDatabaseName LowerCase name =
  if (length (bytes_of name) =? 0)%nat then ("", Some "Empty name is not allowed")
  else
    let padded :=
      if (length (bytes_of name) <? 3)%nat
      then bytes_of name ++ take (3 - String.length name) (bytes_of "___")
      else bytes_of name in
    let cut :=
      if (255 <? length padded)%nat then take 253 padded ++ bytes_of "__"
      else padded in
    (string_of_list_ascii (bytes_ToLower LowerCase cut), None).
Proof.
  unfold normalizeDatabaseName. destruct (length (bytes_of name) =? 0)%nat; [done|].
  cbv zeta. by rewrite replace_loop_id.
Qed.

Lemma normalizeDatabaseName_error LowerCase (name : string) :
  (normalizeDatabaseName LowerCase name).2 ≠ None ↔ name = "".
Proof.
  rewrite normalizeDatabaseName_unfold.
  destruct (Nat.eqb_spec (length (bytes_of name)) 0) as [He|He]; simpl.
  - apply bytes_of_empty in He. split; [done|]. intros _. discriminate.
  - rewrite bytes_of_empty in He. split; [congruence|done].
Qed.

Lemma forallb_is_ascii_app (l l' : list ascii) :
  forallb is_ascii (l ++ l') = forallb is_ascii l && forallb is_ascii l'.
Proof. apply forallb_app. Qed.

Lemma forallb_is_ascii_take (n : nat) (l : list ascii) :
  forallb is_ascii l = true -> forallb is_ascii (take n l) = true.
Proof.
  revert n. induction l as [|c l IH]; intros [|n]; simpl; try done.
  intros [-> ?]%andb_prop. simpl. by apply IH.
Qed.

(** What holds of the lengths: [normalizeDatabaseName] fails exactly when
    the name is empty; the result for a name of more than 255 bytes ends
    with "__"; and for a name of ASCII bytes only, the result has length 3
    when the name has 1 or 2 bytes and length 255 when it has more than
    255. *)
Lemma normalizeDatabaseName_lengths LowerCase (name : string) :
  ((normalizeDatabaseName LowerCase name).2 ≠ None ↔ name = "") ∧
  ((255 < String.length name)%nat →
     ∃ s, (normalizeDatabaseName LowerCase name).1 = s +:+ "__") ∧
  (forallb is_ascii (bytes_of name) = true →
     ((1 <= String.length name <= 2)%nat →
        String.length (normalizeDatabaseName LowerCase name).1 = 3%nat) ∧
     ((255 < String.length name)%nat →
        String.length (normalizeDatabaseName LowerCase name).1 = 255%nat)).
Proof.
  split; [apply normalizeDatabaseName_error|].
  rewrite normalizeDatabaseName_unfold, !length_bytes_of.
  split.
  - intros Hlen.
    destruct (Nat.eqb_spec (String.length name) 0); [lia|].
    destruct (Nat.ltb_spec (String.length name) 3); [lia|]. cbv zeta.
    rewrite length_bytes_of.
    destruct (Nat.ltb_spec 255 (String.length name)); [|lia].
    cbn [fst]. rewrite bytes_ToLower_app_ascii by done.
    rewrite string_of_bytes_app. eauto.
  - intros Hascii. split; intros Hlen.
    + destruct (Nat.eqb_spec (String.length name) 0); [lia|].
      destruct (Nat.ltb_spec (String.length name) 3); [|lia]. cbv zeta.
      assert (Hpad : length (bytes_of name ++
                take (3 - String.length name) (bytes_of "___")) = 3%nat).
      { rewrite length_app, length_take, length_bytes_of.
        change (length (bytes_of "___")) with 3%nat. lia. }
      rewrite Hpad. cbn [Nat.ltb Nat.leb fst].
      rewrite length_string_of_bytes, bytes_ToLower_ascii, length_map; [done|].
      rewrite forallb_is_ascii_app, Hascii. by apply forallb_is_ascii_take.
    + destruct (Nat.eqb_spec (String.length name) 0); [lia|].
      destruct (Nat.ltb_spec (String.length name) 3); [lia|]. cbv zeta.
      rewrite length_bytes_of.
      destruct (Nat.ltb_spec 255 (String.length name)); [|lia].
      cbn [fst].
      rewrite length_string_of_bytes, bytes_ToLower_ascii, length_map.
      * rewrite length_app, length_take, length_bytes_of.
        change (length (bytes_of "__")) with 2%nat. lia.
      * rewrite forallb_is_ascii_app. by rewrite forallb_is_ascii_take.
Qed.

Example normalizeDatabaseName_lengths_example :
  String.length (normalizeDatabaseName LowerCase_latin1 "Ab").1 = 3%nat.
Proof.
  apply (normalizeDatabaseName_lengths LowerCase_latin1 "Ab");
    [reflexivity | simpl; lia].
Qed.

(** C3 at names that are not ASCII. Lines 119-124 fit the name to between
    3 and 255 bytes and [bytes.ToLower] (line 125), which decodes and
    encodes UTF-8, undoes it: the name of the single byte 0xFF has length 1
    and its result has length 5, the padding after the three bytes of
    U+FFFD; the name of 256 such bytes has a result of 761 bytes; and the
    name of 86 times U+3042, 258 bytes of valid UTF-8, is cut inside a
    letter and has a result of 257 bytes. *)
Theorem normalizeDatabaseName_length_not_kept :
  String.length name_0xFF = 1%nat ∧
  normalizeDatabaseName LowerCase_latin1 name_0xFF =
    (String "239" (String "191" (String "189" "__")), None) ∧
  String.length (normalizeDatabaseName LowerCase_latin1 name_0xFF).1 = 5%nat ∧
  String.length name_long_0xFF = 256%nat ∧
  (normalizeDatabaseName LowerCase_latin1 name_long_0xFF).2 = None ∧
  String.length (normalizeDatabaseName LowerCase_latin1 name_long_0xFF).1 =
    761%nat ∧
  String.length name_hiragana = 258%nat ∧
  (normalizeDatabaseName LowerCase_latin1 name_hiragana).2 = None ∧
  String.length (normalizeDatabaseName LowerCase_latin1 name_hiragana).1 =
    257%nat.
Proof. vm_compute. done. Qed.

(** C1 at the name "a-b": the hyphen is outside [a-z0-9_] and is kept, by
    [normalizeDatabaseName] and by [normalizeTableName]; the test of the
    replacement loop holds of every byte ([name_byte_kept_true]). *)
Theorem normalizeDatabaseName_keeps_other_bytes LowerCase :
  normalizeDatabaseName LowerCase "a-b" = ("a-b", None) ∧
  normalizeTableName LowerCase "a-b" = ("a-b", None) ∧
  in_name_charset "-" = false ∧
  (∀ c : ascii, name_byte_kept c = true).
Proof.
  split_and!; try (vm_compute; reflexivity). apply name_byte_kept_true.
Qed.

(** *** strings.SplitN *)

Lemma cut_None (sep : ascii) (s : string) :
  cut sep s = None ↔ sep ∉ bytes_of s.
Proof.
  induction s as [|c s IH]; simpl.
  - split; [intros _; apply not_elem_of_nil | done].
  - destruct (Ascii.eqb_spec c sep) as [->|Hne].
    + split; [done|]. intros []. left.
    + rewrite not_elem_of_cons. destruct (cut sep s) as [[before after]|].
      * split; [done|]. intros [_ H]. by apply IH in H.
      * split; [|done]. intros _. split; [congruence|]. by apply IH.
Qed.

Lemma cut_Some (sep : ascii) (s before after : string) :
  cut sep s = Some (before, after) ↔
  s = before +:+ String sep after ∧ sep ∉ bytes_of before.
Proof.
  revert before. induction s as [|c s IH]; intros before; simpl.
  - split; [done|]. intros [H _]. by destruct before.
  - destruct (Ascii.eqb_spec c sep) as [->|Hne].
    + split.
      * intros [= <- <-]. split; [done | apply not_elem_of_nil].
      * intros [H Hnot]. destruct before as [|b before]; simpl in *.
        -- by injection H as <-.
        -- injection H as <- _. exfalso. apply Hnot. left.
    + split.
      * destruct (cut sep s) as [[b a]|] eqn:Hcut; [|done].
        intros [= <- <-]. destruct (proj1 (IH b) eq_refl) as [-> Hnot].
        split; [done|].
        simpl. rewrite not_elem_of_cons. split; [congruence | done].
      * intros [H Hnot]. destruct before as [|b before]; simpl in *.
        -- injection H as -> _. done.
        -- injection H as <- ->. apply not_elem_of_cons in Hnot as [_ Hnot].
           assert (cut sep (before +:+ String sep after) = Some (before, after)) as ->.
           { apply IH. done. }
           done.
Qed.

Lemma SplitN_2_no_sep (sep : ascii) (s : string) :
  sep ∉ bytes_of s -> SplitN s sep 2 = [s].
Proof. intros H%cut_None. simpl. by rewrite H. Qed.

Lemma SplitN_2_sep (sep : ascii) (before after : string) :
  sep ∉ bytes_of before ->
  SplitN (before +:+ String sep after) sep 2 = [before; after].
Proof.
  intros H. simpl.
  assert (cut sep (before +:+ String sep after) = Some (before, after)) as ->; [|done].
  by apply cut_Some.
Qed.

(** The four cases of the resolution. *)
Lemma resolve_spec (output : TDOutput) (tag : string) :
  (databaseName output ≠ "*" → tableName output ≠ "*" →
     resolve output tag = (databaseName output, tableName output)) ∧
  (databaseName output ≠ "*" → tableName output = "*" →
     resolve output tag = (databaseName output, tag)) ∧
  (databaseName output = "*" → tableName output ≠ "*" →
     resolve output tag = (tag, tableName output)) ∧
  (databaseName output = "*" → tableName output = "*" →
     ("."%char ∉ bytes_of tag → resolve output tag = ("*", tag)) ∧
     (∀ prefix suffix : string,
        tag = prefix +:+ "." +:+ suffix → "."%char ∉ bytes_of prefix →
        resolve output tag = (prefix, suffix))).
Proof.
  unfold resolve.
  destruct (String.eqb_spec (databaseName output) "*") as [Hd|Hd],
           (String.eqb_spec (tableName output) "*") as [Ht|Ht];
    split_and!; try (intros; congruence).
  intros _ _. split.
  - intros Hdot. rewrite SplitN_2_no_sep by done. by rewrite Hd.
  - intros prefix suffix -> Hdot.
    change ("." +:+ suffix) with (String "." suffix).
    by rewrite SplitN_2_sep.
Qed.


(** *** spawnSpooler *)

Lemma spawnSpooler_present (databaseName tableName key : string)
    (daemon : tdOutputSpoolerDaemon) (p : ptr) :
  spoolers daemon !! key = Some p ->
  spawnSpooler databaseName tableName key daemon = (daemon, p).
Proof. intros H. unfold spawnSpooler. by rewrite H. Qed.

Lemma spawnSpooler_registers (databaseName tableName key : string)
    (daemon : tdOutputSpoolerDaemon) :
  spoolers (spawnSpooler databaseName tableName key daemon).1 !! key =
  Some (spawnSpooler databaseName tableName key daemon).2.
Proof.
  unfold spawnSpooler. destruct (spoolers daemon !! key) eqn:H; simpl; [done|].
  apply lookup_insert_eq.
Qed.

Lemma spawnSpooler_preserves (databaseName tableName key k : string)
    (daemon : tdOutputSpoolerDaemon) (p : ptr) :
  spoolers daemon !! k = Some p ->
  spoolers (spawnSpooler databaseName tableName key daemon).1 !! k = Some p.
Proof.
  intros Hk. unfold spawnSpooler.
  destruct (spoolers daemon !! key) eqn:H; simpl; [done|].
  rewrite lookup_insert_ne; [done|]. intros ->. congruence.
Qed.

Lemma spawnSpooler_other (databaseName tableName key k : string)
    (daemon : tdOutputSpoolerDaemon) :
  key ≠ k ->
  spoolers (spawnSpooler databaseName tableName key daemon).1 !! k =
  spoolers daemon !! k ∧
  created_for k (spawnSpooler databaseName tableName key daemon).1 =
  created_for k daemon.
Proof.
  intros Hne. unfold spawnSpooler, created_for.
  destruct (spoolers daemon !! key) eqn:H; simpl; [done|].
  rewrite lookup_insert_ne by done. split; [done|].
  rewrite filter_app, filter_cons_False, filter_nil, app_nil_r; done.
Qed.

Lemma spawnSpooler_absent (databaseName tableName key : string)
    (daemon : tdOutputSpoolerDaemon) :
  spoolers daemon !! key = None ->
  created_for key (spawnSpooler databaseName tableName key daemon).1 =
  created_for key daemon ++ [newTDOutputSpooler databaseName tableName key].
Proof.
  intros H. unfold spawnSpooler, created_for. rewrite H. simpl.
  by rewrite filter_app, filter_cons_True, filter_nil.
Qed.

Lemma spawn_all_cons (databaseName tableName key : string)
    (rest : list (string * string * string)) (daemon : tdOutputSpoolerDaemon) :
  spawn_all ((databaseName, tableName, key) :: rest) daemon =
  ((spawn_all rest (spawnSpooler databaseName tableName key daemon).1).1,
   (spawnSpooler databaseName tableName key daemon).2 ::
   (spawn_all rest (spawnSpooler databaseName tableName key daemon).1).2).
Proof.
  simpl. destruct (spawnSpooler databaseName tableName key daemon) as [d p].
  simpl. by destruct (spawn_all rest d).
Qed.

Lemma spawn_all_preserves (requests : list (string * string * string))
    (daemon : tdOutputSpoolerDaemon) (k : string) (p : ptr) :
  spoolers daemon !! k = Some p ->
  spoolers (spawn_all requests daemon).1 !! k = Some p.
Proof.
  revert daemon. induction requests as [|[[db tbl] key] rest IH]; intros daemon H.
  - done.
  - rewrite spawn_all_cons. simpl. apply IH. by apply spawnSpooler_preserves.
Qed.

Lemma spawn_all_results (requests : list (string * string * string))
    (daemon : tdOutputSpoolerDaemon) (i : nat) (req : string * string * string)
    (p : ptr) :
  requests !! i = Some req ->
  (spawn_all requests daemon).2 !! i = Some p ->
  spoolers (spawn_all requests daemon).1 !! req.2 = Some p.
Proof.
  revert daemon i. induction requests as [|[[db tbl] key] rest IH];
    intros daemon i Hreq Hp; [done|].
  rewrite spawn_all_cons in *. destruct i as [|i]; simpl in *.
  - injection Hreq as <-. injection Hp as <-. simpl.
    apply spawn_all_preserves, spawnSpooler_registers.
  - by eapply IH.
Qed.

Lemma spawn_all_present (requests : list (string * string * string))
    (daemon : tdOutputSpoolerDaemon) (k : string) :
  is_Some (spoolers daemon !! k) ->
  created_for k (spawn_all requests daemon).1 = created_for k daemon.
Proof.
  revert daemon. induction requests as [|[[db tbl] key] rest IH]; intros daemon H.
  - done.
  - rewrite spawn_all_cons. simpl. destruct H as [p Hp]. rewrite IH.
    + destruct (decide (key = k)) as [->|Hne].
      * by erewrite spawnSpooler_present.
      * by apply spawnSpooler_other.
    + exists p. by apply spawnSpooler_preserves.
Qed.

Lemma spawn_all_absent (requests : list (string * string * string))
    (daemon : tdOutputSpoolerDaemon) (k : string) :
  spoolers daemon !! k = None ->
  k ∈ requests.*2 ->
  ∃ databaseName tableName,
    (databaseName, tableName, k) ∈ requests ∧
    created_for k (spawn_all requests daemon).1 =
    created_for k daemon ++ [newTDOutputSpooler databaseName tableName k].
Proof.
  revert daemon. induction requests as [|[[db tbl] key] rest IH];
    intros daemon Habs Hin; simpl in Hin.
  - by apply elem_of_nil in Hin.
  - rewrite spawn_all_cons. simpl. destruct (decide (key = k)) as [->|Hne].
    + exists db, tbl. split; [left|].
      rewrite spawn_all_present.
      * by apply spawnSpooler_absent.
      * rewrite spawnSpooler_registers. eauto.
    + apply elem_of_cons in Hin as [Hin|Hin]; [simpl in Hin; congruence|].
      destruct (spawnSpooler_other db tbl key k daemon Hne) as [Hl Hc].
      destruct (IH (spawnSpooler db tbl key daemon).1) as (d & t & Hreq & Hcr).
      * by rewrite Hl.
      * done.
      * exists d, t. split; [by right|]. by rewrite Hcr, Hc.
Qed.

Lemma spawn_same_key (n : nat) (databaseName tableName key : string) :
  spawn_all (replicate (S n) (databaseName, tableName, key)) newTDOutputSpoolerDaemon =
  ((spawnSpooler databaseName tableName key newTDOutputSpoolerDaemon).1,
   replicate (S n) 0%nat).
Proof.
  assert (H : ∀ d, spoolers d !! key = Some 0%nat →
              spawn_all (replicate n (databaseName, tableName, key)) d =
              (d, replicate n 0%nat)).
  { induction n as [|n IH]; intros d Hd; [done|].
    cbn [replicate]. rewrite spawn_all_cons, (spawnSpooler_present _ _ _ _ _ Hd).
    simpl. by rewrite IH. }
  cbn [replicate]. rewrite spawn_all_cons. rewrite H; [done|].
  apply spawnSpooler_registers.
Qed.

(** C9. Over any sequence of [spawnSpooler] calls, from any state of the
    registry: two calls for the same key return the same spooler; for a key
    that is requested, exactly one spooler is created when the registry had
    none for it and none is created otherwise; an entry of the registry is
    never replaced; and [n + 1] requests of one key to an empty registry
    create one spooler, start one goroutine and return it every time. *)
Theorem spawnSpooler_idempotent (requests : list (string * string * string))
    (daemon : tdOutputSpoolerDaemon) :
  (∀ (i j : nat) (ri rj : string * string * string) (pi pj : ptr),
     requests !! i = Some ri → requests !! j = Some rj → ri.2 = rj.2 →
     (spawn_all requests daemon).2 !! i = Some pi →
     (spawn_all requests daemon).2 !! j = Some pj →
     pi = pj) ∧
  (∀ key : string, key ∈ requests.*2 →
     length (created_for key (spawn_all requests daemon).1) =
     if spoolers daemon !! key is None
     then S (length (created_for key daemon))
     else length (created_for key daemon)) ∧
  (∀ (key : string) (p : ptr),
     spoolers daemon !! key = Some p →
     spoolers (spawn_all requests daemon).1 !! key = Some p) ∧
  (∀ (n : nat) (databaseName tableName key : string),
     let r := spawn_all (replicate (S n) (databaseName, tableName, key))
                newTDOutputSpoolerDaemon in
     r.2 = replicate (S n) 0%nat ∧
     heap r.1 = [newTDOutputSpooler databaseName tableName key] ∧
     goroutines r.1 = [0%nat] ∧ wg r.1 = 1%nat ∧
     spoolers r.1 = {[key := 0%nat]}).
Proof.
  split_and!.
  - intros i j ri rj pi pj Hi Hj Hkey Hpi Hpj.
    pose proof (spawn_all_results _ _ _ _ _ Hi Hpi) as H1.
    pose proof (spawn_all_results _ _ _ _ _ Hj Hpj) as H2.
    rewrite Hkey in H1. congruence.
  - intros key Hin. destruct (spoolers daemon !! key) as [p|] eqn:Hk.
    + rewrite spawn_all_present; [done|]. by rewrite Hk.
    + destruct (spawn_all_absent requests daemon key Hk Hin) as (d & t & _ & ->).
      rewrite length_app. simpl. lia.
  - intros key p. apply spawn_all_preserves.
  - intros n databaseName tableName key. cbv zeta. rewrite spawn_same_key.
    unfold spawnSpooler. cbn [spoolers newTDOutputSpoolerDaemon].
    rewrite lookup_empty. simpl.
    split_and!; done.
Qed.

Lemma spawnSpooler_idempotent_witness :
  spoolers
    (spawn_all [("a", "b", "db_.x__"); ("c", "d", "e")]
       (spawnSpooler "db_" "x__" "db_.x__" newTDOutputSpoolerDaemon).1).1
    !! "db_.x__" = Some 0%nat.
Proof.
  apply (spawnSpooler_idempotent [("a", "b", "db_.x__"); ("c", "d", "e")]
           (spawnSpooler "db_" "x__" "db_.x__" newTDOutputSpoolerDaemon).1).
  vm_compute. reflexivity.
Defined.

(** *** getSpooler *)

Lemma normalizeDatabaseName_empty LowerCase :
  normalizeDatabaseName LowerCase "" = ("", Some "Empty name is not allowed").
Proof. done. Qed.

Lemma normalizeDatabaseName_nonempty LowerCase (name : string) :
  name ≠ "" -> (normalizeDatabaseName LowerCase name).2 = None.
Proof.
  intros H. destruct (normalizeDatabaseName LowerCase name).2 eqn:He; [|done].
  exfalso. apply H, (normalizeDatabaseName_error LowerCase). by rewrite He.
Qed.

(** [getSpooler] in terms of the resolved names. *)
Lemma getSpooler_unfold LowerCase (output : TDOutput) (tag : string)
    (daemon : tdOutputSpoolerDaemon) :
  getSpooler LowerCase output tag daemon =
  if decide ((resolve output tag).1 = "" ∨ (resolve output tag).2 = "")
  then (daemon, (None, Some "Empty name is not allowed"))
  else
    let databaseName := (normalizeDatabaseName LowerCase (resolve output tag).1).1 in
    let tableName := (normalizeTableName LowerCase (resolve output tag).2).1 in
    let r := spawnSpooler databaseName tableName
               (databaseName +:+ "." +:+ tableName) daemon in
    (r.1, (Some r.2, None)).
Proof.
  unfold getSpooler, normalizeTableName.
  destruct (resolve output tag) as [db tbl]. simpl.
  destruct (decide (db = "")) as [->|Hdb].
  { rewrite decide_True by auto. done. }
  pose proof (normalizeDatabaseName_nonempty LowerCase db Hdb) as Hd.
  destruct (normalizeDatabaseName LowerCase db) as [db' e]. simpl in Hd. subst e.
  destruct (decide (tbl = "")) as [->|Htbl].
  { rewrite decide_True by auto. done. }
  pose proof (normalizeDatabaseName_nonempty LowerCase tbl Htbl) as Ht.
  destruct (normalizeDatabaseName LowerCase tbl) as [tbl' e]. simpl in Ht. subst e.
  rewrite decide_False by (intros [?|?]; done).
  simpl. by destruct (spawnSpooler db' tbl' _ daemon).
Qed.

(** C4. [getSpooler] normalizes the resolved names, which are: the
    configured names when both are fixed; the configured namespace and the
    tag when only the relation is the wildcard; the tag and the configured
    relation when only the namespace is the wildcard; and when both are
    wildcards, the marker "*" and the whole tag for a tag without '.', the
    part before the first '.' and the part after it otherwise. *)
Theorem getSpooler_resolves (output : TDOutput) (tag : string) :
  (∀ LowerCase (daemon : tdOutputSpoolerDaemon),
     getSpooler LowerCase output tag daemon =
     if decide ((resolve output tag).1 = "" ∨ (resolve output tag).2 = "")
     then (daemon, (None, Some "Empty name is not allowed"))
     else
       let databaseName :=
         (normalizeDatabaseName LowerCase (resolve output tag).1).1 in
       let tableName :=
         (normalizeTableName LowerCase (resolve output tag).2).1 in
       let r := spawnSpooler databaseName tableName
                  (databaseName +:+ "." +:+ tableName) daemon in
       (r.1, (Some r.2, None))) ∧
  (databaseName output ≠ "*" → tableName output ≠ "*" →
     resolve output tag = (databaseName output, tableName output)) ∧
  (databaseName output ≠ "*" → tableName output = "*" →
     resolve output tag = (databaseName output, tag)) ∧
  (databaseName output = "*" → tableName output ≠ "*" →
     resolve output tag = (tag, tableName output)) ∧
  (databaseName output = "*" → tableName output = "*" →
     ("."%char ∉ bytes_of tag → resolve output tag = ("*", tag)) ∧
     (∀ prefix suffix : string,
        tag = prefix +:+ "." +:+ suffix → "."%char ∉ bytes_of prefix →
        resolve output tag = (prefix, suffix))).
Proof.
  split; [|apply resolve_spec].
  intros LowerCase daemon. apply getSpooler_unfold.
Qed.

Lemma getSpooler_resolves_witness :
  resolve (NewTDOutput "*" "*") "app.web.access" = ("app", "web.access").
Proof.
  destruct (getSpooler_resolves (NewTDOutput "*" "*") "app.web.access")
    as (_ & _ & _ & _ & H).
  apply H; [reflexivity | reflexivity | reflexivity |].
  intros Hin. repeat (apply elem_of_cons in Hin as [Hin|Hin]; [discriminate|]).
  by apply elem_of_nil in Hin.
Defined.

Lemma wildcard_empty_component (output : TDOutput) (tag : string) :
  databaseName output = "*" -> tableName output = "*" ->
  ((resolve output tag).1 = "" ∨ (resolve output tag).2 = "") ↔
  (tag = "" ∨ (∃ rest, tag = "." +:+ rest) ∨
   (∃ prefix, tag = prefix +:+ "." ∧ "."%char ∉ bytes_of prefix)).
Proof.
  intros Hd Ht.
  destruct (cut "." tag) as [[before after]|] eqn:Hcut.
  - pose proof Hcut as [Htag Hnot]%cut_Some.
    destruct (resolve_spec output tag) as (_ & _ & _ & Hw).
    destruct (Hw Hd Ht) as [_ Hsplit].
    rewrite (Hsplit before after Htag Hnot). simpl. split.
    + intros [->| ->]; [right; left; by exists after | right; right; by exists before].
    + intros [->|[[rest Hr]|[prefix [Hp Hpn]]]].
      * by destruct before.
      * left. assert (cut "." tag = Some ("", rest)) as Hc.
        { apply cut_Some. split; [done | apply not_elem_of_nil]. }
        congruence.
      * right. assert (cut "." tag = Some (prefix, "")) as Hc.
        { by apply cut_Some. }
        congruence.
  - pose proof Hcut as Hnot%cut_None.
    destruct (resolve_spec output tag) as (_ & _ & _ & Hw).
    destruct (Hw Hd Ht) as [Hwhole _]. rewrite (Hwhole Hnot). simpl. split.
    + intros [?|?]; [done | by left].
    + intros [->|[[rest ->]|[prefix [-> Hpn]]]]; [by right| |].
      * exfalso. apply Hnot. simpl. left.
      * exfalso. apply Hnot. clear. induction prefix; simpl; [left | by right].
Qed.

Section EmitterFacts.
Variable LowerCase : Z -> Z.
Variable msgpack : gmap string value -> list ascii * option error.
Variable Write_error :
  string -> list ascii -> option (error * list (list ascii)).

Lemma emitter_loop_drops (output : TDOutput) (recordSet : FluentRecordSet)
    (queue : list FluentRecordSet) (st : emitter_state) (err : error) :
  (getSpooler LowerCase output (Tag recordSet) (em_daemon st)).2.2 = Some err ->
  emitter_loop LowerCase msgpack Write_error output (recordSet :: queue) st =
  emitter_loop LowerCase msgpack Write_error output queue
    {| em_daemon := log "ERROR" err (em_daemon st);
       em_journals := em_journals st |}.
Proof.
  intros Herr. cbn [emitter_loop]. unfold emit_recordSet.
  rewrite getSpooler_unfold in *. case_decide; simpl in *; [|done].
  by injection Herr as <-.
Qed.
End EmitterFacts.

(** C10. [getSpooler] returns an error exactly when a resolved name is
    empty, and a spooler otherwise; with both names wildcards, a resolved
    name is empty exactly when the tag is empty, starts with '.', or has
    its first '.' as its last byte; and the emitter, on such an error, logs
    it, leaves the registry and the journals as they were and goes on with
    the next record set. *)
Theorem getSpooler_error LowerCase (output : TDOutput) (tag : string)
    (daemon : tdOutputSpoolerDaemon) :
  ((getSpooler LowerCase output tag daemon).2.2 ≠ None ↔
   (resolve output tag).1 = "" ∨ (resolve output tag).2 = "") ∧
  ((getSpooler LowerCase output tag daemon).2.2 = None ↔
   is_Some (getSpooler LowerCase output tag daemon).2.1) ∧
  (databaseName output = "*" → tableName output = "*" →
   ((resolve output tag).1 = "" ∨ (resolve output tag).2 = "") ↔
   (tag = "" ∨ (∃ rest, tag = "." +:+ rest) ∨
    (∃ prefix, tag = prefix +:+ "." ∧ "."%char ∉ bytes_of prefix))) ∧
  (∀ msgpack Write_error (recordSet : FluentRecordSet)
     (queue : list FluentRecordSet) (journals : gmap string (list (list ascii)))
     (err : error),
     Tag recordSet = tag →
     (getSpooler LowerCase output tag daemon).2.2 = Some err →
     emitter_loop LowerCase msgpack Write_error output (recordSet :: queue)
       {| em_daemon := daemon; em_journals := journals |} =
     emitter_loop LowerCase msgpack Write_error output queue
       {| em_daemon := log "ERROR" err daemon; em_journals := journals |}).
Proof.
  split_and!.
  - rewrite getSpooler_unfold. case_decide; simpl; split; try done.
  - rewrite getSpooler_unfold. case_decide; simpl; split; try done; eauto.
  - apply wildcard_empty_component.
  - intros msgpack Write_error recordSet queue journals err <- Herr.
    by rewrite (emitter_loop_drops _ _ _ _ _ _ _ err).
Qed.

Lemma getSpooler_error_witness :
  (resolve (NewTDOutput "*" "*") "a.").1 = "" ∨
  (resolve (NewTDOutput "*" "*") "a.").2 = "".
Proof.
  destruct (getSpooler_error LowerCase_latin1 (NewTDOutput "*" "*") "a."
              newTDOutputSpoolerDaemon) as (_ & _ & H & _).
  apply H; [reflexivity | reflexivity |].
  right. right. exists "a". split; [reflexivity|].
  intros Hin. repeat (apply elem_of_cons in Hin as [Hin|Hin]; [discriminate|]).
  by apply elem_of_nil in Hin.
Defined.

(** *** Registry keys *)

(** C2, as amended. With the namespace "db" and a wildcard relation, the
    tag "x" is given the spooler registered under "db_.x__"; with both
    wildcards, the tag "a.b" is given the one registered under "a__.b__":
    each name shorter than three bytes is padded with underscores before
    the two are joined. *)
Theorem getSpooler_key_padded LowerCase (daemon : tdOutputSpoolerDaemon) :
  (let r := getSpooler LowerCase (NewTDOutput "db" "*") "x" daemon in
   r.2.2 = None ∧ r.2.1 = spoolers r.1 !! "db_.x__" ∧ is_Some r.2.1) ∧
  (let r := getSpooler LowerCase (NewTDOutput "*" "*") "a.b" daemon in
   r.2.2 = None ∧ r.2.1 = spoolers r.1 !! "a__.b__" ∧ is_Some r.2.1).
Proof.
  split; rewrite getSpooler_unfold; simpl;
    (split; [done|]); rewrite spawnSpooler_registers; eauto.
Qed.

(** C2 fails as stated: after the tag "x" the registry has the single key
    "db_.x__" and nothing under "db.x"; after the tag "a.b" it has the
    single key "a__.b__" and nothing under "a.b". *)
Lemma getSpooler_key_not_joined :
  spoolers (getSpooler LowerCase_latin1 (NewTDOutput "db" "*") "x"
              newTDOutputSpoolerDaemon).1 !! "db.x" = None ∧
  dom (spoolers (getSpooler LowerCase_latin1 (NewTDOutput "db" "*") "x"
              newTDOutputSpoolerDaemon).1) = {["db_.x__"]} ∧
  spoolers (getSpooler LowerCase_latin1 (NewTDOutput "*" "*") "a.b"
              newTDOutputSpoolerDaemon).1 !! "a.b" = None ∧
  dom (spoolers (getSpooler LowerCase_latin1 (NewTDOutput "*" "*") "a.b"
              newTDOutputSpoolerDaemon).1) = {["a__.b__"]}.
Proof.
  split_and!; vm_compute; reflexivity.
Qed.

(** *** Emit and Stop *)

Lemma Emit_loop_closed (recordSets : list FluentRecordSet)
    (others : list queue_event) (ch : chan FluentRecordSet) :
  ch_closed ch = true ->
  Emit_loop recordSets others ch =
  (ch, Some match recordSets with
            | [] => Returns ()
            | _ :: _ => Panics "send on closed channel"
            end).
Proof.
  intros H. destruct recordSets as [|recordSet rest]; [done|].
  simpl. unfold chan_send. by rewrite H.
Qed.

Lemma set_emitterChan_id (output : TDOutput) :
  set_emitterChan (emitterChan output) output = output.
Proof. by destruct output. Qed.

Lemma set_isShuttingDown_id (output : TDOutput) :
  set_isShuttingDown (isShuttingDown output) output = output.
Proof. by destruct output. Qed.

(** [Emit] lets no panic out and returns no error: when it returns, it
    returns nil. *)
Lemma Emit_returns (recordSets : list FluentRecordSet)
    (others : list queue_event) (output : TDOutput) :
  (Emit recordSets others output).2 = None ∨
  (Emit recordSets others output).2 = Some (Returns None).
Proof.
  unfold Emit.
  destruct (Emit_loop recordSets others (emitterChan output))
    as [ch [[u|msg]|]]; simpl; auto.
Qed.

(** C6. On an output whose inbound queue is closed, [Emit] of any record
    sets returns (it does not wait, whatever the other goroutines do),
    returns nil, without a panic, and leaves the output as it was. *)
Theorem Emit_after_close (recordSets : list FluentRecordSet)
    (others : list queue_event) (output : TDOutput) :
  ch_closed (emitterChan output) = true ->
  Emit recordSets others output = (output, Some (Returns None)).
Proof.
  intros H. unfold Emit. rewrite Emit_loop_closed by done.
  rewrite H. cbn [negb andb]. rewrite orb_false_r.
  rewrite set_isShuttingDown_id, set_emitterChan_id. by destruct recordSets.
Qed.

Lemma Emit_after_close_witness :
  Emit [recordSet_example] [Q_receive] (Stop (NewTDOutput "*" "*")).1 =
  ((Stop (NewTDOutput "*" "*")).1, Some (Returns None)).
Proof.
  apply (Emit_after_close [recordSet_example] [Q_receive]
           (Stop (NewTDOutput "*" "*")).1).
  reflexivity.
Defined.

Lemma Stop_first (output : TDOutput) :
  isShuttingDown output = false ->
  ch_closed (emitterChan output) = false ->
  Stop output =
  ({| databaseName := databaseName output; tableName := tableName output;
      emitterChan := {| ch_closed := true; ch_sent := ch_sent (emitterChan output);
                        ch_closes := S (ch_closes (emitterChan output)) |};
      isShuttingDown := true |}, Returns ()).
Proof.
  intros Hflag Hopen. unfold Stop, CompareAndSwap. rewrite Hflag. simpl.
  unfold chan_close. by rewrite Hopen.
Qed.

Lemma Stop_again (output : TDOutput) :
  isShuttingDown output = true -> Stop output = (output, Returns ()).
Proof.
  intros Hflag. unfold Stop, CompareAndSwap. rewrite Hflag. simpl.
  by destruct output; simpl in *; subst.
Qed.

Lemma Stop_times_again (n : nat) (output : TDOutput) :
  isShuttingDown output = true ->
  Stop_times n output = (output, replicate n (Returns ())).
Proof.
  intros Hflag. induction n as [|n IH]; [done|].
  simpl. rewrite Stop_again by done. by rewrite IH.
Qed.

(** C7. On an output that is not shutting down and whose queue is open,
    [n + 1] calls of [Stop] leave the state the first call left, none of
    them panics, the queue ends closed and was closed once; a further
    [Stop] changes nothing. *)
Theorem Stop_idempotent (n : nat) (output : TDOutput) :
  isShuttingDown output = false ->
  ch_closed (emitterChan output) = false ->
  Stop_times (S n) output = ((Stop output).1, replicate (S n) (Returns ())) ∧
  ch_closed (emitterChan (Stop_times (S n) output).1) = true ∧
  ch_closes (emitterChan (Stop_times (S n) output).1) =
    S (ch_closes (emitterChan output)) ∧
  Stop (Stop output).1 = ((Stop output).1, Returns ()).
Proof.
  intros Hflag Hopen.
  assert (Stop_times (S n) output = ((Stop output).1, replicate (S n) (Returns ()))) as Hn.
  { cbn [Stop_times]. rewrite (Stop_first output) by done.
    by rewrite Stop_times_again. }
  rewrite Hn. rewrite (Stop_first output) by done. simpl. split_and!; try done.
Qed.


Lemma Stop_idempotent_witness :
  Stop_times 3 (NewTDOutput "*" "*") =
    ((Stop (NewTDOutput "*" "*")).1, replicate 3 (Returns ())) ∧
  ch_closed (emitterChan (Stop_times 3 (NewTDOutput "*" "*")).1) = true ∧
  ch_closes (emitterChan (Stop_times 3 (NewTDOutput "*" "*")).1) = 1%nat ∧
  Stop (Stop (NewTDOutput "*" "*")).1 =
    ((Stop (NewTDOutput "*" "*")).1, Returns ()).
Proof.
  apply (Stop_idempotent 2 (NewTDOutput "*" "*")); reflexivity.
Defined.

(** *** Concurrent calls of Stop *)

Lemma closing_insert (l : list stop_pc) (i : nat) (x y : stop_pc) :
  l !! i = Some x ->
  (length (filter (λ pc, is_closing pc = true) (<[i := y]> l)) +
   (if is_closing x then 1 else 0) =
   length (filter (λ pc, is_closing pc = true) l) +
   (if is_closing y then 1 else 0))%nat.
Proof.
  revert i. induction l as [|pc l IH]; intros [|i] H; simpl in *; try done.
  - injection H as ->. rewrite !filter_cons.
    destruct (is_closing x), (is_closing y); simpl;
      repeat case_decide; simpl; try done; lia.
  - rewrite !filter_cons. specialize (IH i H).
    case_decide; simpl; lia.
Qed.

Lemma stop_inv_start (n : nat) (output : TDOutput) :
  isShuttingDown output = false ->
  ch_closed (emitterChan output) = false ->
  stop_inv (ch_closes (emitterChan output)) (stop_start n output).
Proof.
  intros Hflag Hopen. unfold stop_inv, closing. simpl. rewrite Hflag, Hopen.
  split_and!; [|  |done].
  - by apply Forall_replicate.
  - induction n as [|n IH]; [done|]. simpl. rewrite filter_cons.
    by rewrite decide_False.
Qed.

Lemma stop_step_inv (c0 i : nat) (s : stopping) :
  stop_inv c0 s -> stop_inv c0 (stop_step i s).
Proof.
  intros [Hpanic Hst]. unfold stop_step.
  destruct (st_callers s !! i) as [[| |r]|] eqn:Hi; [| |by split..].
  - pose proof (closing_insert (st_callers s) i Before_swap) as Hins.
    unfold CompareAndSwap, closing in *.
    destruct (isShuttingDown (st_output s)) eqn:Hflag;
      (split; [by apply Forall_insert|]); unfold closing; simpl.
    + specialize (Hins (Stopped (Returns ())) Hi). simpl in Hins.
      destruct (ch_closed (emitterChan (st_output s)));
        destruct Hst; (split; [lia | done]).
    + specialize (Hins Before_close Hi). simpl in Hins.
      destruct (ch_closed (emitterChan (st_output s))); [done|].
      destruct Hst. split; [lia | done].
  - pose proof (closing_insert (st_callers s) i Before_close
                  (Stopped (Returns ())) Hi) as Hins. simpl in Hins.
    unfold chan_close, closing in *.
    destruct (isShuttingDown (st_output s)) eqn:Hflag,
             (ch_closed (emitterChan (st_output s))) eqn:Hclosed;
      try done; try (exfalso; lia).
    split; [by apply Forall_insert|]. unfold closing. simpl. rewrite Hflag.
    split; [lia | by f_equal; destruct Hst].
Qed.

(** X1. Calls of [Stop] that run at once, their steps interleaved in any
    order: the queue is closed at most once and no call panics. *)
Theorem Stop_concurrent (n : nat) (schedule : list nat) (output : TDOutput) :
  isShuttingDown output = false ->
  ch_closed (emitterChan output) = false ->
  let s := stop_schedule schedule (stop_start n output) in
  (ch_closes (emitterChan (st_output s)) <= S (ch_closes (emitterChan output)))%nat ∧
  Forall (λ pc, has_panicked pc = false) (st_callers s).
Proof.
  intros Hflag Hopen s.
  assert (Hinv : stop_inv (ch_closes (emitterChan output)) s).
  { subst s. generalize (stop_inv_start n output Hflag Hopen).
    generalize (stop_start n output). unfold stop_schedule.
    induction schedule as [|i schedule IH]; intros s0 H0; [done|].
    simpl. by apply IH, stop_step_inv. }
  destruct Hinv as [Hpanic Hst]. split; [|done].
  destruct (isShuttingDown (st_output s)), (ch_closed (emitterChan (st_output s)));
    try done; destruct Hst; lia.
Qed.

Lemma Stop_concurrent_example :
  let s := stop_schedule [0; 1; 1; 0; 2; 2]%nat (stop_start 3 (NewTDOutput "*" "*")) in
  st_callers s = replicate 3 (Stopped (Returns ())) ∧
  ch_closes (emitterChan (st_output s)) = 1%nat.
Proof. done. Qed.

(** *** The flush handler *)

Lemma is_Dispose_same (chunk : JournalChunk) : is_Dispose chunk (Ev_Dispose chunk) = true.
Proof. unfold is_Dispose. by rewrite !String.eqb_refl. Qed.

Section SpoolerFacts.
Variable td_Import :
  string -> string -> string -> CompressingBlob -> string -> outcome (option error).

Lemma flush_handler_unfold (tempFactory : TempFileRandomAccessStoreFactory)
    (spooler : tdOutputSpooler) (chunk : JournalChunk) :
  flush_handler td_Import tempFactory spooler chunk =
  ([Ev_log "INFO" ("Flushing chunk " +:+ chunk_String chunk);
    Ev_Import (sp_databaseName spooler) (sp_tableName spooler) "msgpack.gz"
      (NewCompressingBlob chunk 16777216 gzip_BestSpeed tempFactory)
      (chunk_Id chunk);
    Ev_Dispose chunk],
   td_Import (sp_databaseName spooler) (sp_tableName spooler) "msgpack.gz"
     (NewCompressingBlob chunk 16777216 gzip_BestSpeed tempFactory)
     (chunk_Id chunk)).
Proof.
  unfold flush_handler, defer, mbind, M_bind, bind, tell, Import, mret, M_ret, ret.
  simpl.
  by destruct (td_Import _ _ _ _ _).
Qed.

(** C8. On every chunk, whatever [Import] does (it returns nil, returns
    an error or panics), the handler calls the chunk's [Dispose] once and
    ends as [Import] ended, with its error; [Journal.Flush] then retains
    the chunk unless that was a return of nil. *)
Theorem flush_handler_disposes_once (tempFactory : TempFileRandomAccessStoreFactory)
    (spooler : tdOutputSpooler) (chunk : JournalChunk) :
  let imported :=
    td_Import (sp_databaseName spooler) (sp_tableName spooler) "msgpack.gz"
      (NewCompressingBlob chunk 16777216 gzip_BestSpeed tempFactory)
      (chunk_Id chunk) in
  let handler := flush_handler td_Import tempFactory spooler in
  disposals chunk (handler chunk).1 = 1%nat ∧
  (handler chunk).2 = imported ∧
  disposals chunk (Journal_Flush handler [chunk]).1 = 1%nat ∧
  (Journal_Flush handler [chunk]).2 =
    match imported with
    | Returns None => []
    | _ => [chunk]
    end.
Proof.
  cbv zeta. cbn [Journal_Flush]. rewrite flush_handler_unfold.
  cbn [fst snd]. rewrite app_nil_r.
  unfold disposals. cbn [filter list_filter].
  rewrite !decide_False by (simpl; done).
  rewrite decide_True by apply is_Dispose_same. done.
Qed.
End SpoolerFacts.


Example flush_handler_refused :
  flush_handler Import_refused {| tf_Dir := "/tmp"; tf_Prefix := "" |}
    (newTDOutputSpooler "db_" "x__" "db_.x__") chunk_example =
  ([Ev_log "INFO" "Flushing chunk chunk c1";
    Ev_Import "db_" "x__" "msgpack.gz"
      (NewCompressingBlob chunk_example 16777216 1
         {| tf_Dir := "/tmp"; tf_Prefix := "" |}) "c1";
    Ev_Dispose chunk_example],
   Returns (Some "403 Forbidden")).
Proof. reflexivity. Qed.

(** *** encodeRecords *)

Lemma record_entry_union (record : TinyFluentRecord) :
  record_entry record =
  Data record ∪ {["time" := V_uint64 (Timestamp record)]}.
Proof.
  unfold record_entry.
  induction (Data record) as [|k v m Hk Hfirst IH] using map_first_key_ind.
  - rewrite map_fold_empty. by rewrite (left_id_L ∅ (∪)).
  - rewrite map_fold_insert_first_key by done. rewrite IH.
    by rewrite insert_union_l.
Qed.

Lemma record_entry_lookup (record : TinyFluentRecord) (k : string) :
  record_entry record !! k =
  match Data record !! k with
  | Some v => Some v
  | None => if decide (k = "time") then Some (V_uint64 (Timestamp record)) else None
  end.
Proof.
  rewrite record_entry_union, lookup_union.
  destruct (Data record !! k) as [v|] eqn:Hk.
  - by destruct ({["time" := V_uint64 (Timestamp record)]} !! k).
  - rewrite (left_id_L None union). case_decide as Ht.
    + subst. apply lookup_singleton_eq.
    + by apply lookup_singleton_ne.
Qed.

Section EncoderFacts.
Variable msgpack : gmap string value -> list ascii * option error.

Lemma encodeRecords_encoded (records : list TinyFluentRecord) (encoder : Encoder) :
  ∃ n : nat,
    (n <= length records)%nat ∧
    enc_encoded (encodeRecords msgpack encoder records).1 =
      enc_encoded encoder ++ (record_entry <$> take n records) ∧
    ((encodeRecords msgpack encoder records).2 = None → n = length records) ∧
    (Forall (λ record, (msgpack (record_entry record)).2 = None) records →
     (encodeRecords msgpack encoder records).2 = None).
Proof.
  revert encoder. induction records as [|record rest IH]; intros encoder.
  - exists 0%nat. simpl. by rewrite app_nil_r.
  - cbn [encodeRecords]. unfold Encode.
    destruct (msgpack (record_entry record)) as [out [err|]] eqn:Hm.
    + exists 1%nat. simpl. split_and!; [lia|done|done|].
      intros H. apply Forall_cons in H as [H _]. by rewrite Hm in H.
    + destruct (IH {| enc_buffer := enc_buffer encoder ++ out;
                      enc_encoded := enc_encoded encoder ++ [record_entry record] |})
        as (n & Hn & Henc & Hnone & Hall).
      exists (S n). simpl in *. split_and!.
      * lia.
      * by rewrite Henc, <-app_assoc.
      * intros H. by rewrite Hnone.
      * intros H. apply Forall_cons in H as [_ H]. by apply Hall.
Qed.
Lemma encodeRecords_all (records : list TinyFluentRecord) (encoder : Encoder) :
  Forall (λ record, (msgpack (record_entry record)).2 = None) records ->
  encodeRecords msgpack encoder records =
  ({| enc_buffer := enc_buffer encoder ++ encoded_bytes msgpack records;
      enc_encoded := enc_encoded encoder ++ (record_entry <$> records) |}, None).
Proof.
  intros Hall. revert encoder.
  induction Hall as [|record rest Hrec _ IH]; intros encoder.
  - simpl. unfold encoded_bytes. simpl. rewrite !app_nil_r. by destruct encoder.
  - cbn [encodeRecords]. unfold Encode.
    destruct (msgpack (record_entry record)) as [out err] eqn:Hm.
    simpl in Hrec. subst err. rewrite IH. simpl.
    unfold encoded_bytes. simpl. rewrite Hm. simpl.
    by rewrite <-!app_assoc.
Qed.

Lemma encodeRecords_app (before after : list TinyFluentRecord) (encoder : Encoder) :
  encodeRecords msgpack encoder (before ++ after) =
  match encodeRecords msgpack encoder before with
  | (encoder', Some err) => (encoder', Some err)
  | (encoder', None) => encodeRecords msgpack encoder' after
  end.
Proof.
  revert encoder. induction before as [|record rest IH]; intros encoder; [done|].
  simpl. destruct (Encode msgpack (record_entry record) encoder) as [e [err|]];
    [done | apply IH].
Qed.

Lemma encodeRecords_stops (before after : list TinyFluentRecord)
    (record : TinyFluentRecord) (err : error) (encoder : Encoder) :
  Forall (λ record, (msgpack (record_entry record)).2 = None) before ->
  (msgpack (record_entry record)).2 = Some err ->
  encodeRecords msgpack encoder (before ++ record :: after) =
  ({| enc_buffer :=
        enc_buffer encoder ++ encoded_bytes msgpack (before ++ [record]);
      enc_encoded :=
        enc_encoded encoder ++ (record_entry <$> before ++ [record]) |},
   Some err).
Proof.
  intros Hbefore Herr.
  rewrite encodeRecords_app, encodeRecords_all by done.
  cbn [encodeRecords]. unfold Encode.
  destruct (msgpack (record_entry record)) as [out e] eqn:Hm.
  simpl in Herr. subst e. simpl.
  unfold encoded_bytes. rewrite !fmap_app, concat_app. simpl.
  rewrite Hm. simpl. by rewrite !app_nil_r, <-!app_assoc.
Qed.

End EncoderFacts.

(** C5, as amended. [encodeRecords] gives the encoder one map per record,
    in the order of the list, and stops after the first record whose
    encoding fails: when every record encodes, the encoder has been given
    the maps of all of them and nil is returned; when a record fails after
    records that encode, the encoder has been given the maps of those and
    of the failing one, not of the records after it, and that record's
    error is returned. The map of a record holds every pair of the record's
    data, maps "time" to the record's timestamp when the data have no
    "time" key, and holds no other key. *)
Theorem encodeRecords_entries msgpack (records : list TinyFluentRecord)
    (encoder : Encoder) :
  (Forall (λ record, (msgpack (record_entry record)).2 = None) records →
   encodeRecords msgpack encoder records =
   ({| enc_buffer := enc_buffer encoder ++ encoded_bytes msgpack records;
       enc_encoded := enc_encoded encoder ++ (record_entry <$> records) |},
    None)) ∧
  (∀ (before after : list TinyFluentRecord) (record : TinyFluentRecord)
     (err : error),
     records = before ++ record :: after →
     Forall (λ record, (msgpack (record_entry record)).2 = None) before →
     (msgpack (record_entry record)).2 = Some err →
     encodeRecords msgpack encoder records =
     ({| enc_buffer :=
           enc_buffer encoder ++ encoded_bytes msgpack (before ++ [record]);
         enc_encoded :=
           enc_encoded encoder ++ (record_entry <$> before ++ [record]) |},
      Some err)) ∧
  (∃ n : nat,
     (n <= length records)%nat ∧
     enc_encoded (encodeRecords msgpack encoder records).1 =
       enc_encoded encoder ++ (record_entry <$> take n records) ∧
     ((encodeRecords msgpack encoder records).2 = None → n = length records) ∧
     (Forall (λ record, (msgpack (record_entry record)).2 = None) records →
      (encodeRecords msgpack encoder records).2 = None)) ∧
  (∀ record : TinyFluentRecord,
     (∀ (k : string) (v : value),
        Data record !! k = Some v → record_entry record !! k = Some v) ∧
     (Data record !! "time" = None →
        record_entry record !! "time" = Some (V_uint64 (Timestamp record))) ∧
     (∀ k : string,
        k ≠ "time" → Data record !! k = None → record_entry record !! k = None)).
Proof.
  split_and!.
  - apply encodeRecords_all.
  - intros before after record err -> Hbefore Herr.
    by apply encodeRecords_stops.
  - apply encodeRecords_encoded.
  - intros record. split_and!.
    + intros k v H. by rewrite record_entry_lookup, H.
    + intros H. by rewrite record_entry_lookup, H.
    + intros k Hk H. rewrite record_entry_lookup, H. by rewrite decide_False.
Qed.

Lemma encodeRecords_entries_witness :
  record_entry record_plain !! "time" = Some (V_uint64 (Timestamp record_plain)).
Proof.
  destruct (encodeRecords_entries msgpack_sizes [record_plain] NewEncoder)
    as (_ & _ & _ & H).
  apply (H record_plain). reflexivity.
Defined.

(** C5 fails as stated: for a record whose data have a "time" field, the
    map given to the encoder maps "time" to that field and not to the
    timestamp. *)
Lemma encodeRecords_time_overridden :
  enc_encoded (encodeRecords msgpack_sizes NewEncoder [record_with_time]).1 =
    [record_entry record_with_time] ∧
  record_entry record_with_time !! "time" = Some (V_string "noon") ∧
  record_entry record_with_time !! "time" ≠
    Some (V_uint64 (Timestamp record_with_time)).
Proof.
  split_and!.
  - done.
  - by rewrite record_entry_lookup.
  - by rewrite record_entry_lookup.
Qed.

(** * Further properties *)

(** ** Emit *)

Lemma Emit_loop_receives (delivered recordSets : list FluentRecordSet)
    (others : list queue_event) (ch : chan FluentRecordSet) :
  ch_closed ch = false ->
  Emit_loop (delivered ++ recordSets)
    (replicate (length delivered) Q_receive ++ others) ch =
  Emit_loop recordSets others
    {| ch_closed := false; ch_sent := ch_sent ch ++ delivered;
       ch_closes := ch_closes ch |}.
Proof.
  revert ch. induction delivered as [|recordSet rest IH]; intros ch Hopen.
  - simpl. rewrite app_nil_r. by destruct ch; simpl in *; subst.
  - simpl. unfold chan_send. rewrite Hopen. rewrite IH by done.
    simpl. by rewrite <-app_assoc.
Qed.

(** X2. [Emit] returns no error and lets no panic out: when it returns, it
    returns nil. On an open queue the record sets are handed to the emitter
    in their order, each when the emitter receives it: when the emitter
    receives them all, [Emit] returns with all of them handed over; when
    the queue is closed while a send waits, [Emit] returns with the record
    sets before that one handed over and no other; and when the emitter
    receives no more and the queue stays open, [Emit] does not return. *)
Theorem Emit_hands_over (output : TDOutput) :
  ch_closed (emitterChan output) = false ->
  (∀ (recordSets : list FluentRecordSet) (others : list queue_event),
     (Emit recordSets others output).2 = None ∨
     (Emit recordSets others output).2 = Some (Returns None)) ∧
  (∀ (recordSets : list FluentRecordSet) (others : list queue_event),
     Emit recordSets (replicate (length recordSets) Q_receive ++ others) output =
     (set_emitterChan
        {| ch_closed := false;
           ch_sent := ch_sent (emitterChan output) ++ recordSets;
           ch_closes := ch_closes (emitterChan output) |} output,
      Some (Returns None))) ∧
  (∀ (delivered later : list FluentRecordSet) (recordSet : FluentRecordSet)
     (others : list queue_event),
     Emit (delivered ++ recordSet :: later)
       (replicate (length delivered) Q_receive ++ Q_close :: others) output =
     (set_emitterChan
        {| ch_closed := true;
           ch_sent := ch_sent (emitterChan output) ++ delivered;
           ch_closes := S (ch_closes (emitterChan output)) |}
        (set_isShuttingDown true output),
      Some (Returns None))) ∧
  (∀ (delivered later : list FluentRecordSet) (recordSet : FluentRecordSet),
     Emit (delivered ++ recordSet :: later)
       (replicate (length delivered) Q_receive) output =
     (set_emitterChan
        {| ch_closed := false;
           ch_sent := ch_sent (emitterChan output) ++ delivered;
           ch_closes := ch_closes (emitterChan output) |} output,
      None)).
Proof.
  intros Hopen. split_and!.
  - intros recordSets others. apply Emit_returns.
  - intros recordSets others. unfold Emit.
    rewrite <-(app_nil_r recordSets) at 1.
    rewrite Emit_loop_receives by done. cbn [Emit_loop].
    rewrite Hopen. cbn [negb andb ch_closed]. rewrite orb_false_r.
    by rewrite set_isShuttingDown_id.
  - intros delivered later recordSet others. unfold Emit.
    rewrite Emit_loop_receives by done. cbn [Emit_loop head].
    unfold chan_send. cbn [ch_closed ch_sent ch_closes].
    rewrite Hopen. cbn [negb andb]. by rewrite orb_true_r.
  - intros delivered later recordSet. unfold Emit.
    rewrite <-(app_nil_r (replicate _ _)).
    rewrite Emit_loop_receives by done. cbn [Emit_loop head].
    unfold chan_send. cbn [ch_closed ch_sent ch_closes].
    rewrite Hopen. cbn [negb andb]. rewrite orb_false_r.
    by rewrite set_isShuttingDown_id.
Qed.

Lemma Emit_hands_over_witness :
  Emit [recordSet_example; recordSet_example; recordSet_example]
    (replicate (length [recordSet_example]) Q_receive ++ [Q_close; Q_receive])
    (NewTDOutput "*" "*") =
  (set_emitterChan
     {| ch_closed := true;
        ch_sent := ch_sent (emitterChan (NewTDOutput "*" "*")) ++
                   [recordSet_example];
        ch_closes := S (ch_closes (emitterChan (NewTDOutput "*" "*"))) |}
     (set_isShuttingDown true (NewTDOutput "*" "*")),
   Some (Returns None)).
Proof.
  destruct (Emit_hands_over (NewTDOutput "*" "*") eq_refl) as (_ & _ & H & _).
  apply (H [recordSet_example] [recordSet_example] recordSet_example
           [Q_receive]).
Defined.

(** ** Names of ASCII bytes *)

Lemma lower_byte_ascii (c : ascii) :
  is_ascii c = true -> is_ascii (lower_byte c) = true ∧ is_upper (lower_byte c) = false.
Proof.
  unfold is_ascii, lower_byte, is_upper. intros Hc%Z.ltb_lt.
  pose proof (byte_val_range c).
  destruct ((65 <=? byte_val c) && (byte_val c <=? 90)) eqn:Hup.
  - apply andb_prop in Hup as [?%Z.leb_le ?%Z.leb_le].
    unfold byte_val, byte_of. rewrite Z.mod_small by (unfold byte_val in *; lia).
    rewrite N_ascii_embedding by (unfold byte_val in *; lia).
    rewrite Z2N.id by (unfold byte_val in *; lia). fold (byte_val c).
    split; [apply Z.ltb_lt; lia|]. apply andb_false_iff. right.
    apply Z.leb_gt. lia.
  - split; [by apply Z.ltb_lt | done].
Qed.

Lemma lower_byte_not_upper (c : ascii) :
  is_upper c = false -> lower_byte c = c.
Proof. unfold is_upper, lower_byte. by intros ->. Qed.

Lemma map_lower_byte_lower (l : list ascii) :
  Forall (λ c, is_upper c = false) l -> map lower_byte l = l.
Proof.
  induction 1 as [|c l Hc _ IH]; [done|]. simpl.
  by rewrite lower_byte_not_upper, IH.
Qed.

Lemma forallb_is_ascii_Forall (l : list ascii) :
  forallb is_ascii l = true ↔ Forall (λ c, is_ascii c = true) l.
Proof.
  induction l as [|c l IH]; simpl; [by split|].
  rewrite andb_true_iff, Forall_cons, IH. done.
Qed.

Lemma map_lower_byte_Forall (l : list ascii) :
  forallb is_ascii l = true ->
  Forall (λ c, is_ascii c = true ∧ is_upper c = false) (map lower_byte l).
Proof.
  intros H%forallb_is_ascii_Forall.
  induction H as [|c l Hc _ IH]; simpl; constructor; [|done].
  by apply lower_byte_ascii.
Qed.

Lemma elem_of_take_inv (c : ascii) (n : nat) (l : list ascii) :
  c ∈ take n l -> c ∈ l.
Proof.
  intros (i & Hi & _)%elem_of_take. by eapply list_elem_of_lookup_2.
Qed.

Lemma elem_of_underscores (c : ascii) (n : nat) (s : string) :
  Forall (λ c', c' = "_"%char) (bytes_of s) ->
  c ∈ take n (bytes_of s) -> c = "_"%char.
Proof.
  intros Hall Hin%elem_of_take_inv.
  by apply (proj1 (Forall_forall _ _) Hall).
Qed.

(** The result for a name of ASCII bytes: the name, padded or cut to
    between 3 and 255 bytes, with its letters in lower case. *)
Lemma normalizeDatabaseName_ascii LowerCase (name : string) :
  name ≠ "" ->
  forallb is_ascii (bytes_of name) = true ->
  ∃ fitted : list ascii,
    normalizeDatabaseName LowerCase name =
      (string_of_list_ascii (map lower_byte fitted), None) ∧
    forallb is_ascii fitted = true ∧
    (3 <= length fitted <= 255)%nat ∧
    ((3 <= String.length name <= 255)%nat → fitted = bytes_of name) ∧
    (∀ c, c ∈ fitted → c ∈ bytes_of name ∨ c = "_"%char).
Proof.
  intros Hne Hascii. rewrite normalizeDatabaseName_unfold.
  destruct (Nat.eqb_spec (length (bytes_of name)) 0) as [He|He].
  { by apply bytes_of_empty in He. }
  cbv zeta. rewrite !length_bytes_of in *.
  destruct (Nat.ltb_spec (String.length name) 3) as [Hshort|Hshort].
  - assert (Hpad : length (bytes_of name ++
               take (3 - String.length name) (bytes_of "___")) = 3%nat).
    { rewrite length_app, length_take, length_bytes_of.
      change (length (bytes_of "___")) with 3%nat. lia. }
    rewrite Hpad. cbn [Nat.ltb Nat.leb].
    assert (Hfa : forallb is_ascii (bytes_of name ++
               take (3 - String.length name) (bytes_of "___")) = true).
    { rewrite forallb_is_ascii_app, Hascii. by apply forallb_is_ascii_take. }
    refine (ex_intro _ _ (conj _ (conj Hfa (conj _ (conj _ _))))).
    + by rewrite bytes_ToLower_ascii.
    + lia.
    + lia.
    + intros c [Hc|Hc]%elem_of_app; [by left|right].
      apply (elem_of_underscores c (3 - String.length name) "___");
        [repeat constructor | done].
  - rewrite length_bytes_of.
    destruct (Nat.ltb_spec 255 (String.length name)) as [Hlong|Hlong].
    + assert (Hfa : forallb is_ascii
                 (take 253 (bytes_of name) ++ bytes_of "__") = true).
      { rewrite forallb_is_ascii_app. by rewrite forallb_is_ascii_take. }
      refine (ex_intro _ _ (conj _ (conj Hfa (conj _ (conj _ _))))).
      * by rewrite bytes_ToLower_ascii.
      * rewrite length_app, length_take, length_bytes_of.
        change (length (bytes_of "__")) with 2%nat. lia.
      * lia.
      * intros c [Hc|Hc]%elem_of_app.
        -- left. by eapply elem_of_take_inv.
        -- right. apply (elem_of_underscores c 2 "__");
             [repeat constructor | done].
    + refine (ex_intro _ _ (conj _ (conj Hascii (conj _ (conj _ _))))).
      * by rewrite bytes_ToLower_ascii.
      * rewrite length_bytes_of. lia.
      * done.
      * intros c Hc. by left.
Qed.

(** X3. For every non-empty name of ASCII bytes, the normalized name has
    between 3 and 255 bytes, all of them ASCII and none an upper-case
    letter, and it has the length of the name when that is between 3 and
    255. *)
Theorem normalizeDatabaseName_ascii_bounds LowerCase (name : string) :
  name ≠ "" ->
  forallb is_ascii (bytes_of name) = true ->
  (normalizeDatabaseName LowerCase name).2 = None ∧
  (3 <= String.length (normalizeDatabaseName LowerCase name).1 <= 255)%nat ∧
  Forall (λ c, is_ascii c = true ∧ is_upper c = false)
         (bytes_of (normalizeDatabaseName LowerCase name).1) ∧
  ((3 <= String.length name <= 255)%nat →
   String.length (normalizeDatabaseName LowerCase name).1 = String.length name).
Proof.
  intros Hne Hascii.
  destruct (normalizeDatabaseName_ascii LowerCase name Hne Hascii)
    as (fitted & -> & Hfa & Hlen & Hsame & _).
  cbn [fst snd]. rewrite length_string_of_bytes, length_map.
  split_and!; [done|lia|lia| |].
  - unfold bytes_of. rewrite list_ascii_of_string_of_list_ascii.
    by apply map_lower_byte_Forall.
  - intros H. rewrite (Hsame H). apply length_bytes_of.
Qed.

Lemma normalizeDatabaseName_ascii_bounds_witness :
  (3 <= String.length (normalizeDatabaseName LowerCase_latin1 "Sales_2014").1 <= 255)%nat.
Proof.
  apply (normalizeDatabaseName_ascii_bounds LowerCase_latin1 "Sales_2014");
    [discriminate | reflexivity].
Defined.

(** X4. Normalizing is idempotent on names of ASCII bytes: the normalized
    name of such a name is normalized to itself; so is every name of 3 to
    255 ASCII bytes without upper-case letters. *)
Theorem normalizeDatabaseName_idempotent LowerCase (name : string) :
  forallb is_ascii (bytes_of name) = true ->
  (name ≠ "" →
   normalizeDatabaseName LowerCase (normalizeDatabaseName LowerCase name).1 =
   normalizeDatabaseName LowerCase name) ∧
  ((3 <= String.length name <= 255)%nat →
   Forall (λ c, is_upper c = false) (bytes_of name) →
   normalizeDatabaseName LowerCase name = (name, None)).
Proof.
  intros Hascii.
  assert (Hfix : ∀ n : string,
            forallb is_ascii (bytes_of n) = true →
            (3 <= String.length n <= 255)%nat →
            Forall (λ c, is_upper c = false) (bytes_of n) →
            normalizeDatabaseName LowerCase n = (n, None)).
  { intros n Ha Hl Hlow.
    assert (n ≠ "") as Hn by (intros ->; simpl in Hl; lia).
    destruct (normalizeDatabaseName_ascii LowerCase n Hn Ha)
      as (fitted & -> & _ & _ & Hsame & _).
    rewrite (Hsame Hl), map_lower_byte_lower by done.
    unfold bytes_of. by rewrite string_of_list_ascii_of_string. }
  split; [|by apply Hfix].
  intros Hne.
  destruct (normalizeDatabaseName_ascii LowerCase name Hne Hascii)
    as (fitted & Heq & Hfa & Hlen & _ & _).
  rewrite Heq. cbn [fst].
  assert (Hb : bytes_of (string_of_list_ascii (map lower_byte fitted)) =
               map lower_byte fitted).
  { unfold bytes_of. apply list_ascii_of_string_of_list_ascii. }
  pose proof (map_lower_byte_Forall fitted Hfa) as Hlow.
  apply Hfix.
  - rewrite Hb. apply forallb_is_ascii_Forall.
    eapply Forall_impl; [exact Hlow|]. by intros c [? ?].
  - rewrite length_string_of_bytes, length_map. lia.
  - rewrite Hb. eapply Forall_impl; [exact Hlow|]. by intros c [? ?].
Qed.

Lemma normalizeDatabaseName_idempotent_witness :
  normalizeDatabaseName LowerCase_latin1
    (normalizeDatabaseName LowerCase_latin1 "Db").1 =
  normalizeDatabaseName LowerCase_latin1 "Db".
Proof.
  apply (normalizeDatabaseName_idempotent LowerCase_latin1 "Db");
    [reflexivity | discriminate].
Defined.

(** ** The registry *)

Lemma registry_wf_new : registry_wf newTDOutputSpoolerDaemon.
Proof.
  unfold registry_wf. simpl. split_and!; try done.
Qed.

Lemma registry_wf_log (level msg : string) (daemon : tdOutputSpoolerDaemon) :
  registry_wf daemon -> registry_wf (log level msg daemon).
Proof. done. Qed.

Lemma registry_wf_spawnSpooler (databaseName tableName key : string)
    (daemon : tdOutputSpoolerDaemon) :
  registry_wf daemon ->
  registry_wf (spawnSpooler databaseName tableName key daemon).1.
Proof.
  intros (Hentry & Hheap & Hsize & Hwg & Hgo). unfold spawnSpooler.
  destruct (spoolers daemon !! key) as [p|] eqn:Hkey; [done|].
  unfold registry_wf. cbn [fst spoolers heap wg goroutines log sp_key newTDOutputSpooler].
  split_and!.
  - intros k p Hk. destruct (decide (key = k)) as [->|Hne].
    + rewrite lookup_insert_eq in Hk. injection Hk as <-.
      exists databaseName, tableName.
      rewrite lookup_app_r by done. by rewrite Nat.sub_diag.
    + rewrite lookup_insert_ne in Hk by done.
      destruct (Hentry k p Hk) as (d & t & Hp). exists d, t.
      rewrite lookup_app_l; [done|]. by eapply lookup_lt_Some.
  - intros p sp Hp. destruct (decide (p < length (heap daemon))%nat) as [Hlt|Hge].
    + rewrite lookup_app_l in Hp by done.
      pose proof (Hheap p sp Hp) as Hreg.
      rewrite lookup_insert_ne; [done|]. intros Heq. rewrite <-Heq in Hreg.
      congruence.
    + rewrite lookup_app_r in Hp by lia.
      destruct (p - length (heap daemon))%nat as [|n] eqn:Hn; [|done].
      injection Hp as <-. simpl.
      rewrite lookup_insert_eq. f_equal. lia.
  - rewrite map_size_insert_None by done. rewrite length_app. simpl. lia.
  - rewrite length_app. simpl. lia.
  - rewrite length_app. simpl. rewrite Hgo.
    rewrite Nat.add_1_r, seq_S. done.
Qed.

Lemma registry_wf_getSpooler LowerCase (output : TDOutput) (tag : string)
    (daemon : tdOutputSpoolerDaemon) :
  registry_wf daemon ->
  registry_wf (getSpooler LowerCase output tag daemon).1.
Proof.
  intros H. rewrite getSpooler_unfold. case_decide; [done|].
  by apply registry_wf_spawnSpooler.
Qed.

Lemma registry_wf_spawn_all (requests : list (string * string * string))
    (daemon : tdOutputSpoolerDaemon) :
  registry_wf daemon -> registry_wf (spawn_all requests daemon).1.
Proof.
  revert daemon. induction requests as [|[[db tbl] key] rest IH]; intros daemon H.
  - done.
  - rewrite spawn_all_cons. simpl. by apply IH, registry_wf_spawnSpooler.
Qed.

(** X5. The registry that [newTDOutputSpoolerDaemon] makes is well formed,
    and [spawnSpooler] and [getSpooler] keep it so: every entry points to
    the spooler made for its key, every spooler made is the entry of its
    key, and the number of entries, the number of spoolers, the wait
    group's counter and the number of goroutines started are the same. *)
Theorem registry_wf_kept :
  registry_wf newTDOutputSpoolerDaemon ∧
  (∀ (databaseName tableName key : string) (daemon : tdOutputSpoolerDaemon),
     registry_wf daemon →
     registry_wf (spawnSpooler databaseName tableName key daemon).1) ∧
  (∀ LowerCase (output : TDOutput) (tag : string)
     (daemon : tdOutputSpoolerDaemon),
     registry_wf daemon →
     registry_wf (getSpooler LowerCase output tag daemon).1) ∧
  (∀ daemon : tdOutputSpoolerDaemon,
     registry_wf daemon →
     (∀ (key key' : string) (p : ptr),
        spoolers daemon !! key = Some p → spoolers daemon !! key' = Some p →
        key = key') ∧
     length (goroutines daemon) = size (spoolers daemon) ∧
     wg daemon = size (spoolers daemon)).
Proof.
  split_and!.
  - apply registry_wf_new.
  - apply registry_wf_spawnSpooler.
  - apply registry_wf_getSpooler.
  - intros daemon (Hentry & Hheap & Hsize & Hwg & Hgo). split_and!.
    + intros key key' p Hk Hk'.
      destruct (Hentry key p Hk) as (d & t & Hp).
      destruct (Hentry key' p Hk') as (d' & t' & Hp').
      rewrite Hp in Hp'. by injection Hp'.
    + rewrite Hgo, length_seq. done.
    + congruence.
Qed.

Lemma registry_wf_kept_witness :
  registry_wf
    (getSpooler LowerCase_latin1 (NewTDOutput "*" "*") "app.web"
       (getSpooler LowerCase_latin1 (NewTDOutput "*" "*") "app.db"
          newTDOutputSpoolerDaemon).1).1.
Proof.
  destruct registry_wf_kept as (Hnew & _ & Hget & _).
  apply Hget, Hget, Hnew.
Defined.

(** ** Routing *)

Lemma getSpooler_again LowerCase (output : TDOutput) (tag tag' : string)
    (daemon : tdOutputSpoolerDaemon) :
  (getSpooler LowerCase output tag daemon).2.2 = None ->
  (normalizeDatabaseName LowerCase (resolve output tag').1).1 =
  (normalizeDatabaseName LowerCase (resolve output tag).1).1 ->
  (normalizeTableName LowerCase (resolve output tag').2).1 =
  (normalizeTableName LowerCase (resolve output tag).2).1 ->
  (resolve output tag').1 ≠ "" -> (resolve output tag').2 ≠ "" ->
  getSpooler LowerCase output tag' (getSpooler LowerCase output tag daemon).1 =
  ((getSpooler LowerCase output tag daemon).1,
   (getSpooler LowerCase output tag daemon).2).
Proof.
  intros Hok Hdb Htbl Hd Ht. rewrite !getSpooler_unfold in *.
  destruct (decide ((resolve output tag).1 = "" ∨ (resolve output tag).2 = ""));
    [done|].
  rewrite decide_False by (intros [?|?]; done).
  cbv zeta. cbn [fst snd]. rewrite Hdb, Htbl.
  erewrite spawnSpooler_present; [done|]. apply spawnSpooler_registers.
Qed.

(** X6. Once [getSpooler] has returned a spooler for a tag, it returns the
    same spooler, and changes nothing, for that tag again and for every tag
    whose resolved names are not empty and normalize to the same names. *)
Theorem getSpooler_same_destination LowerCase (output : TDOutput)
    (tag tag' : string) (daemon : tdOutputSpoolerDaemon) :
  (getSpooler LowerCase output tag daemon).2.2 = None ->
  getSpooler LowerCase output tag (getSpooler LowerCase output tag daemon).1 =
    ((getSpooler LowerCase output tag daemon).1,
     (getSpooler LowerCase output tag daemon).2) ∧
  ((resolve output tag').1 ≠ "" → (resolve output tag').2 ≠ "" →
   (normalizeDatabaseName LowerCase (resolve output tag').1).1 =
   (normalizeDatabaseName LowerCase (resolve output tag).1).1 →
   (normalizeTableName LowerCase (resolve output tag').2).1 =
   (normalizeTableName LowerCase (resolve output tag).2).1 →
   getSpooler LowerCase output tag' (getSpooler LowerCase output tag daemon).1 =
    ((getSpooler LowerCase output tag daemon).1,
     (getSpooler LowerCase output tag daemon).2)).
Proof.
  intros Hok. split.
  - apply getSpooler_again; try done.
    + rewrite getSpooler_unfold in Hok. case_decide as Hr; [done|].
      intros ?. apply Hr. by left.
    + rewrite getSpooler_unfold in Hok. case_decide as Hr; [done|].
      intros ?. apply Hr. by right.
  - intros Hd Ht Hdb Htbl. by apply getSpooler_again.
Qed.

Lemma getSpooler_same_destination_witness :
  getSpooler LowerCase_latin1 (NewTDOutput "*" "*") "App.Web"
    (getSpooler LowerCase_latin1 (NewTDOutput "*" "*") "app.web"
       newTDOutputSpoolerDaemon).1 =
  ((getSpooler LowerCase_latin1 (NewTDOutput "*" "*") "app.web"
      newTDOutputSpoolerDaemon).1,
   (getSpooler LowerCase_latin1 (NewTDOutput "*" "*") "app.web"
      newTDOutputSpoolerDaemon).2).
Proof.
  apply (getSpooler_same_destination LowerCase_latin1 (NewTDOutput "*" "*")
           "app.web" "App.Web" newTDOutputSpoolerDaemon);
    (reflexivity || discriminate).
Defined.

(** X7. With both names wildcards and a tag that has a '.', the resolved
    names joined by '.' are the tag again, and the namespace has no '.';
    for a tag without '.', the relation is the tag. *)
Theorem resolve_wildcards_join (output : TDOutput) (tag : string) :
  databaseName output = "*" -> tableName output = "*" ->
  ("."%char ∈ bytes_of tag →
   (resolve output tag).1 +:+ "." +:+ (resolve output tag).2 = tag ∧
   "."%char ∉ bytes_of (resolve output tag).1) ∧
  ("."%char ∉ bytes_of tag → (resolve output tag).2 = tag).
Proof.
  intros Hd Ht. destruct (resolve_spec output tag) as (_ & _ & _ & Hw).
  destruct (Hw Hd Ht) as [Hwhole Hsplit]. split.
  - intros Hin. destruct (cut "." tag) as [[before after]|] eqn:Hcut.
    + apply cut_Some in Hcut as [Htag Hnot].
      rewrite (Hsplit before after Htag Hnot). by rewrite Htag.
    + by apply cut_None in Hcut.
  - intros Hnot. by rewrite (Hwhole Hnot).
Qed.

Lemma resolve_wildcards_join_witness :
  (resolve (NewTDOutput "*" "*") "a.b.c").1 +:+ "." +:+
  (resolve (NewTDOutput "*" "*") "a.b.c").2 = "a.b.c" ∧
  "."%char ∉ bytes_of (resolve (NewTDOutput "*" "*") "a.b.c").1.
Proof.
  apply (resolve_wildcards_join (NewTDOutput "*" "*") "a.b.c");
    [reflexivity | reflexivity |].
  right. left.
Defined.

(** ** Keys and destinations *)

Lemma bytes_of_append (s s' : string) :
  bytes_of (s +:+ s') = bytes_of s ++ bytes_of s'.
Proof. induction s as [|c s IH]; simpl; [done|]. by rewrite IH. Qed.

Lemma bytes_of_inj (s s' : string) : bytes_of s = bytes_of s' -> s = s'.
Proof.
  intros H. rewrite <-(string_of_list_ascii_of_string s),
    <-(string_of_list_ascii_of_string s'). unfold bytes_of in H. by rewrite H.
Qed.

Lemma append_inv_head (s x y : string) : s +:+ x = s +:+ y -> x = y.
Proof.
  intros H. apply bytes_of_inj. apply (f_equal bytes_of) in H.
  rewrite !bytes_of_append in H. by apply app_inv_head in H.
Qed.

Lemma append_inv_tail (s x y : string) : x +:+ s = y +:+ s -> x = y.
Proof.
  intros H. apply bytes_of_inj. apply (f_equal bytes_of) in H.
  rewrite !bytes_of_append in H. by apply app_inv_tail in H.
Qed.

(** A string is cut at its first '.' in one way only. *)
Lemma join_inj (a b a' b' : string) :
  "."%char ∉ bytes_of a -> "."%char ∉ bytes_of a' ->
  a +:+ "." +:+ b = a' +:+ "." +:+ b' -> a = a' ∧ b = b'.
Proof.
  intros Ha Ha' Heq.
  assert (cut "." (a +:+ "." +:+ b) = Some (a, b)) as H1 by (by apply cut_Some).
  assert (cut "." (a' +:+ "." +:+ b') = Some (a', b')) as H2 by (by apply cut_Some).
  rewrite Heq, H2 in H1. by injection H1 as -> ->.
Qed.

Lemma lower_byte_dot (c : ascii) : lower_byte c = "."%char -> c = "."%char.
Proof.
  unfold lower_byte. pose proof (byte_val_range c).
  destruct ((65 <=? byte_val c) && (byte_val c <=? 90)) eqn:Hup; [|done].
  apply andb_prop in Hup as [?%Z.leb_le ?%Z.leb_le].
  intros Heq. apply (f_equal byte_val) in Heq.
  unfold byte_val at 1, byte_of in Heq.
  rewrite Z.mod_small, N_ascii_embedding, Z2N.id in Heq by lia.
  change (byte_val ".") with 46 in Heq. lia.
Qed.

(** Normalizing a name of ASCII bytes brings no '.' into it. *)
Lemma normalizeDatabaseName_no_dot LowerCase (name : string) :
  name ≠ "" ->
  forallb is_ascii (bytes_of name) = true ->
  "."%char ∉ bytes_of name ->
  "."%char ∉ bytes_of (normalizeDatabaseName LowerCase name).1.
Proof.
  intros Hne Hascii Hdot.
  destruct (normalizeDatabaseName_ascii LowerCase name Hne Hascii)
    as (fitted & -> & _ & _ & _ & Hfrom).
  cbn [fst]. unfold bytes_of. rewrite list_ascii_of_string_of_list_ascii.
  intros (c & Hc & Hin)%list_elem_of_fmap.
  symmetry in Hc. apply lower_byte_dot in Hc. subst c.
  destruct (Hfrom _ Hin) as [?|?]; [done | discriminate].
Qed.

(** X14. Under every configuration, two tags of ASCII bytes whose names
    resolve to non-empty names and that are given the same key have the
    same normalized namespace and the same normalized relation: a spooler
    is never shared by two destinations. *)
Theorem destination_key_inj LowerCase (output : TDOutput) (tag tag' : string) :
  forallb is_ascii (bytes_of tag) = true ->
  forallb is_ascii (bytes_of tag') = true ->
  (resolve output tag).1 ≠ "" -> (resolve output tag').1 ≠ "" ->
  destination_key LowerCase output tag = destination_key LowerCase output tag' ->
  (normalizeDatabaseName LowerCase (resolve output tag).1).1 =
  (normalizeDatabaseName LowerCase (resolve output tag').1).1 ∧
  (normalizeTableName LowerCase (resolve output tag).2).1 =
  (normalizeTableName LowerCase (resolve output tag').2).1.
Proof.
  intros Hascii Hascii' Hne Hne'. unfold destination_key.
  assert (Hwild : databaseName output = "*" → tableName output = "*" →
            ∀ t : string, forallb is_ascii (bytes_of t) = true →
              (resolve output t).1 ≠ "" →
              "."%char ∉ bytes_of
                (normalizeDatabaseName LowerCase (resolve output t).1).1).
  { intros Hd Ht t Ha Hn.
    destruct (resolve_spec output t) as (_ & _ & _ & Hw).
    destruct (Hw Hd Ht) as [Hwhole Hsplit].
    destruct (cut "." t) as [[before after]|] eqn:Hcut.
    - apply cut_Some in Hcut as [Htag Hnot].
      rewrite (Hsplit before after Htag Hnot) in *. cbn [fst] in *.
      apply normalizeDatabaseName_no_dot; [done| |done].
      rewrite Htag, bytes_of_append, forallb_is_ascii_app in Ha.
      by apply andb_prop in Ha as [? _].
    - apply cut_None in Hcut. rewrite (Hwhole Hcut). cbn [fst].
      apply normalizeDatabaseName_no_dot; [done|done|].
      intros Hin. repeat (apply elem_of_cons in Hin as [Hin|Hin]; [discriminate|]).
      by apply elem_of_nil in Hin. }
  destruct (resolve_spec output tag) as (Hff & Hfw & Hwf & _).
  destruct (resolve_spec output tag') as (Hff' & Hfw' & Hwf' & _).
  destruct (decide (databaseName output = "*")) as [Hd|Hd],
           (decide (tableName output = "*")) as [Ht|Ht].
  - intros Heq. apply join_inj in Heq; [done| |]; by apply Hwild.
  - rewrite (Hwf Hd Ht), (Hwf' Hd Ht). cbn [fst snd]. intros Heq.
    apply append_inv_tail in Heq. by rewrite Heq.
  - rewrite (Hfw Hd Ht), (Hfw' Hd Ht). cbn [fst snd]. intros Heq.
    apply append_inv_head, append_inv_head in Heq. by rewrite Heq.
  - by rewrite (Hff Hd Ht), (Hff' Hd Ht).
Qed.

Lemma destination_key_inj_witness :
  (normalizeDatabaseName LowerCase_latin1
     (resolve (NewTDOutput "*" "*") "App.Web").1).1 =
  (normalizeDatabaseName LowerCase_latin1
     (resolve (NewTDOutput "*" "*") "app.web").1).1 ∧
  (normalizeTableName LowerCase_latin1
     (resolve (NewTDOutput "*" "*") "App.Web").2).1 =
  (normalizeTableName LowerCase_latin1
     (resolve (NewTDOutput "*" "*") "app.web").2).1.
Proof.
  apply (destination_key_inj LowerCase_latin1 (NewTDOutput "*" "*")
           "App.Web" "app.web"); (reflexivity || discriminate).
Defined.

(** ** The bytes of encodeRecords *)

Section EncoderBytes.
Variable msgpack : gmap string value -> list ascii * option error.

(** X8. [encodeRecords] returns nil when every record encodes, and
    otherwise the error of the first record that does not, without
    encoding the records after it; the buffer then holds, after what it
    held, the bytes written for the records up to that one, in order. *)
Theorem encodeRecords_first_error (records : list TinyFluentRecord)
    (encoder : Encoder) :
  (Forall (λ record, (msgpack (record_entry record)).2 = None) records →
   encodeRecords msgpack encoder records =
   ({| enc_buffer := enc_buffer encoder ++ encoded_bytes msgpack records;
       enc_encoded := enc_encoded encoder ++ (record_entry <$> records) |},
    None)) ∧
  (∀ (before after : list TinyFluentRecord) (record : TinyFluentRecord)
     (err : error),
     records = before ++ record :: after →
     Forall (λ record, (msgpack (record_entry record)).2 = None) before →
     (msgpack (record_entry record)).2 = Some err →
     encodeRecords msgpack encoder records =
     ({| enc_buffer :=
           enc_buffer encoder ++ encoded_bytes msgpack (before ++ [record]);
         enc_encoded :=
           enc_encoded encoder ++ (record_entry <$> before ++ [record]) |},
      Some err)).
Proof.
  split; [apply encodeRecords_all|].
  intros before after record err -> Hbefore Herr.
  by apply encodeRecords_stops.
Qed.

End EncoderBytes.

Lemma encodeRecords_first_error_witness :
  encodeRecords msgpack_small NewEncoder
    [record_plain; record_wide; record_plain] =
  ({| enc_buffer := [byte_of 2];
      enc_encoded := [record_entry record_plain; record_entry record_wide] |},
   Some "map too large").
Proof.
  destruct (encodeRecords_first_error msgpack_small
              [record_plain; record_wide; record_plain] NewEncoder) as [_ H].
  apply (H [record_plain] [record_plain] record_wide "map too large");
    [reflexivity | repeat constructor | reflexivity].
Defined.

(** ** The emitter *)

Section EmitterMore.
Variable LowerCase : Z -> Z.
Variable msgpack : gmap string value -> list ascii * option error.
Variable Write_error :
  string -> list ascii -> option (error * list (list ascii)).

Lemma getSpooler_preserves (output : TDOutput) (tag key : string)
    (daemon : tdOutputSpoolerDaemon) (p : ptr) :
  spoolers daemon !! key = Some p ->
  spoolers (getSpooler LowerCase output tag daemon).1 !! key = Some p.
Proof.
  intros H. rewrite getSpooler_unfold. case_decide; [done|].
  by apply spawnSpooler_preserves.
Qed.

(** What one record set does to the journals: nothing, or entries added at
    the end of one journal. *)
Lemma emit_recordSet_journals (output : TDOutput) (recordSet : FluentRecordSet)
    (st : emitter_state) :
  let r := emit_recordSet LowerCase msgpack Write_error output recordSet st in
  (em_journals r.1 = em_journals st) ∨
  (∃ (key : string) (more : list (list ascii)),
     em_journals r.1 =
     <[key := default [] (em_journals st !! key) ++ more]> (em_journals st)).
Proof.
  unfold emit_recordSet.
  destruct (getSpooler LowerCase output (Tag recordSet) (em_daemon st))
    as [daemon [spooler [err|]]]; [by left|].
  destruct (encodeRecords msgpack NewEncoder (Records recordSet))
    as [encoder [err|]]; [by left|].
  destruct (spooler ≫= _) as [sp|]; [|by left].
  unfold journal_Write. destruct (Write_error _ _) as [[err partial]|];
    right; eauto.
Qed.

Lemma emit_recordSet_registry (output : TDOutput) (recordSet : FluentRecordSet)
    (st : emitter_state) (key : string) (p : ptr) :
  spoolers (em_daemon st) !! key = Some p ->
  spoolers (em_daemon
    (emit_recordSet LowerCase msgpack Write_error output recordSet st).1)
    !! key = Some p.
Proof.
  intros H. unfold emit_recordSet.
  pose proof (getSpooler_preserves output (Tag recordSet) key (em_daemon st) p H)
    as Hp.
  destruct (getSpooler LowerCase output (Tag recordSet) (em_daemon st))
    as [daemon [spooler [err|]]]; [done|].
  destruct (encodeRecords msgpack NewEncoder (Records recordSet))
    as [encoder [err|]]; [done|].
  destruct (spooler ≫= _) as [sp|]; [|done].
  by destruct (journal_Write _ _ _ _).
Qed.

(** X9. A record set whose tag resolves to non-empty names, whose records
    all encode and whose write succeeds adds one entry to the journal of
    its destination key, the bytes of its records in order, and leaves the
    other journals as they were. *)
Theorem emit_recordSet_written (output : TDOutput) (recordSet : FluentRecordSet)
    (st : emitter_state) :
  registry_wf (em_daemon st) ->
  (resolve output (Tag recordSet)).1 ≠ "" ->
  (resolve output (Tag recordSet)).2 ≠ "" ->
  Forall (λ record, (msgpack (record_entry record)).2 = None)
         (Records recordSet) ->
  Write_error (destination_key LowerCase output (Tag recordSet))
              (encoded_bytes msgpack (Records recordSet)) = None ->
  let r := emit_recordSet LowerCase msgpack Write_error output recordSet st in
  r.2 = None ∧
  em_journals r.1 =
    <[destination_key LowerCase output (Tag recordSet) :=
        default [] (em_journals st
                      !! destination_key LowerCase output (Tag recordSet)) ++
        [encoded_bytes msgpack (Records recordSet)]]> (em_journals st) ∧
  is_Some (spoolers (em_daemon r.1)
             !! destination_key LowerCase output (Tag recordSet)).
Proof.
  intros Hwf Hd Ht Henc Hwrite. cbv zeta. unfold emit_recordSet.
  pose proof (registry_wf_getSpooler LowerCase output (Tag recordSet)
                (em_daemon st) Hwf) as Hwf'.
  rewrite getSpooler_unfold in *.
  rewrite decide_False in * by (intros [?|?]; done).
  cbv zeta in *. cbn [fst snd] in *.
  fold (destination_key LowerCase output (Tag recordSet)) in *.
  set (key := destination_key LowerCase output (Tag recordSet)) in *.
  set (sp := spawnSpooler _ _ key (em_daemon st)) in *.
  pose proof (spawnSpooler_registers
                (normalizeDatabaseName LowerCase (resolve output (Tag recordSet)).1).1
                (normalizeTableName LowerCase (resolve output (Tag recordSet)).2).1
                key (em_daemon st)) as Hreg.
  fold sp in Hreg.
  destruct Hwf' as (Hentry & _). destruct (Hentry key sp.2 Hreg) as (d & t & Hheap).
  rewrite encodeRecords_all by done. simpl. rewrite Hheap. simpl.
  unfold journal_Write. rewrite Hwrite. simpl. split_and!; [done|done|].
  rewrite Hreg. eauto.
Qed.

Lemma encodeRecords_fails (records : list TinyFluentRecord) (encoder : Encoder) :
  Exists (λ record, (msgpack (record_entry record)).2 ≠ None) records ->
  (encodeRecords msgpack encoder records).2 ≠ None.
Proof.
  revert encoder. induction records as [|record rest IH]; intros encoder Hex.
  - by apply Exists_nil in Hex.
  - cbn [encodeRecords]. unfold Encode.
    destruct (msgpack (record_entry record)) as [out [err|]] eqn:Hm; [done|].
    apply IH. apply Exists_cons in Hex as [Hex|Hex]; [|done].
    by rewrite Hm in Hex.
Qed.

(** X10. A record set whose tag resolves to an empty name, or one of whose
    records does not encode, ends in an error with every journal as it
    was: [journal.Write] is not called, and nothing of the record set is
    written, not even the records that were encoded before the failing
    one. *)
Theorem emit_recordSet_failed (output : TDOutput) (recordSet : FluentRecordSet)
    (st : emitter_state) :
  (resolve output (Tag recordSet)).1 = "" ∨
  (resolve output (Tag recordSet)).2 = "" ∨
  Exists (λ record, (msgpack (record_entry record)).2 ≠ None)
         (Records recordSet) ->
  (emit_recordSet LowerCase msgpack Write_error output recordSet st).2 ≠ None ∧
  em_journals (emit_recordSet LowerCase msgpack Write_error output recordSet st).1 =
  em_journals st.
Proof.
  intros Hfail. unfold emit_recordSet. rewrite getSpooler_unfold.
  destruct (decide ((resolve output (Tag recordSet)).1 = "" ∨
                    (resolve output (Tag recordSet)).2 = "")) as [Hr|Hr]; [done|].
  cbv zeta. cbn [fst snd].
  destruct Hfail as [Hd|[Ht|Hex]]; [by destruct Hr; left|by destruct Hr; right|].
  pose proof (encodeRecords_fails (Records recordSet) NewEncoder Hex) as Henc.
  by destruct (encodeRecords msgpack NewEncoder (Records recordSet))
    as [encoder [err|]].
Qed.

(** X11. Over any queue of record sets the emitter only adds: an entry of
    the registry stays as it is, and what a journal held stays at its
    front. *)
Theorem emitter_loop_grows (output : TDOutput) (queue : list FluentRecordSet)
    (st : emitter_state) :
  let st' := emitter_loop LowerCase msgpack Write_error output queue st in
  (∀ (key : string) (p : ptr),
     spoolers (em_daemon st) !! key = Some p →
     spoolers (em_daemon st') !! key = Some p) ∧
  (∀ (key : string) (written : list (list ascii)),
     em_journals st !! key = Some written →
     ∃ more, em_journals st' !! key = Some (written ++ more)).
Proof.
  cbv zeta. revert st. induction queue as [|recordSet rest IH]; intros st.
  - split; [done|]. intros key written H. exists []. by rewrite app_nil_r.
  - cbn [emitter_loop].
    pose proof (emit_recordSet_journals output recordSet st) as Hj.
    pose proof (emit_recordSet_registry output recordSet st) as Hr.
    cbv zeta in Hj.
    destruct (emit_recordSet LowerCase msgpack Write_error output recordSet st)
      as [st1 e] eqn:Hstep. simpl in Hj, Hr.
    set (st2 := match e with
                | Some err => {| em_daemon := log "ERROR" err (em_daemon st1);
                                 em_journals := em_journals st1 |}
                | None => st1
                end).
    assert (Hj2 : em_journals st2 = em_journals st1) by (by destruct e).
    assert (Hr2 : spoolers (em_daemon st2) = spoolers (em_daemon st1))
      by (by destruct e).
    destruct (IH st2) as [IHr IHj]. split.
    + intros key p H. apply IHr. rewrite Hr2. by apply Hr.
    + intros key written H.
      assert (∃ more1, em_journals st2 !! key = Some (written ++ more1))
        as [more1 H1].
      { rewrite Hj2. destruct Hj as [->|(k & data & ->)].
        - exists []. by rewrite app_nil_r.
        - destruct (decide (k = key)) as [->|Hne].
          + rewrite lookup_insert_eq, H. simpl. eauto.
          + rewrite lookup_insert_ne by done. exists []. by rewrite app_nil_r. }
      destruct (IHj key _ H1) as [more2 H2]. exists (more1 ++ more2).
      by rewrite app_assoc.
Qed.

End EmitterMore.

Lemma emit_recordSet_written_witness :
  let r := emit_recordSet LowerCase_latin1 msgpack_sizes Write_ok
             (NewTDOutput "*" "*") recordSet_example
             {| em_daemon := newTDOutputSpoolerDaemon; em_journals := ∅ |} in
  r.2 = None ∧
  em_journals r.1 =
    <[destination_key LowerCase_latin1 (NewTDOutput "*" "*") "app.web" :=
        default [] ((∅ : gmap string (list (list ascii)))
                      !! destination_key LowerCase_latin1 (NewTDOutput "*" "*") "app.web") ++
        [encoded_bytes msgpack_sizes [record_plain]]]> ∅ ∧
  is_Some (spoolers (em_daemon r.1)
             !! destination_key LowerCase_latin1 (NewTDOutput "*" "*") "app.web").
Proof.
  apply (emit_recordSet_written LowerCase_latin1 msgpack_sizes Write_ok
           (NewTDOutput "*" "*") recordSet_example
           {| em_daemon := newTDOutputSpoolerDaemon; em_journals := ∅ |}).
  - apply registry_wf_new.
  - discriminate.
  - discriminate.
  - repeat constructor.
  - reflexivity.
Defined.

Lemma emit_recordSet_failed_witness :
  (emit_recordSet LowerCase_latin1 msgpack_small Write_ok
     (NewTDOutput "*" "*") recordSet_wide
     {| em_daemon := newTDOutputSpoolerDaemon; em_journals := ∅ |}).2 ≠ None ∧
  em_journals
    (emit_recordSet LowerCase_latin1 msgpack_small Write_ok
       (NewTDOutput "*" "*") recordSet_wide
       {| em_daemon := newTDOutputSpoolerDaemon; em_journals := ∅ |}).1 = ∅.
Proof.
  apply (emit_recordSet_failed LowerCase_latin1 msgpack_small Write_ok
           (NewTDOutput "*" "*") recordSet_wide
           {| em_daemon := newTDOutputSpoolerDaemon; em_journals := ∅ |}).
  right. right. apply Exists_cons. right. apply Exists_cons. left.
  intros H. vm_compute in H. discriminate H.
Defined.

(** ** The shutdown signal of the spoolers *)

Lemma signalled_idempotent (sg : spooler_signal) :
  signalled (signalled sg) = signalled sg.
Proof. by destruct sg as [[|] buffer]. Qed.

Lemma registered_or_not (registry : gmap string ptr) (p : ptr) :
  (∃ key, registry !! key = Some p) ∨ (∀ key, registry !! key ≠ Some p).
Proof.
  destruct (decide (Exists (λ kq, kq.2 = p) (map_to_list registry))) as [H|H].
  - left. apply Exists_exists in H as ([k q] & Hel & Hq).
    exists k. apply elem_of_map_to_list in Hel. simpl in Hq. by subst.
  - right. intros k Hk. apply H, Exists_exists. exists (k, p).
    split; [by apply elem_of_map_to_list | done].
Qed.

(** One spooler: the signal is sent if the flag was idle, and the send
    does not wait when the channel of an idle spooler is empty. *)
Lemma cleanup_signal_spec (p : ptr) (signals : list spooler_signal)
    (sg : spooler_signal) :
  signals !! p = Some sg ->
  (sig_isShuttingDown sg = false → sig_shutdownChan sg = []) ->
  cleanup_signal p signals = Some (<[p := signalled sg]> signals).
Proof.
  intros Hp Hidle. unfold cleanup_signal, signalled, CompareAndSwap.
  rewrite Hp. destruct (sig_isShuttingDown sg) eqn:Hflag; simpl.
  - by rewrite list_insert_id.
  - by rewrite (Hidle eq_refl).
Qed.

(** The state after the daemon's loop over [registry]. *)
Lemma cleanup_signals_spec (registry : gmap string ptr)
    (signals : list spooler_signal) :
  (∀ (key : string) (p : ptr), registry !! key = Some p →
     ∃ sg, signals !! p = Some sg ∧
           (sig_isShuttingDown sg = false → sig_shutdownChan sg = [])) ->
  ∃ signals',
    cleanup_signals registry signals = Some signals' ∧
    length signals' = length signals ∧
    (∀ (p : ptr) (sg : spooler_signal), signals !! p = Some sg →
       ((∃ key, registry !! key = Some p) → signals' !! p = Some (signalled sg)) ∧
       ((∀ key, registry !! key ≠ Some p) → signals' !! p = Some sg)).
Proof.
  unfold cleanup_signals.
  induction registry as [|key p registry Hkey Hfirst IH] using map_first_key_ind;
    intros Hreg.
  - exists signals. rewrite map_fold_empty. split_and!; [done|done|].
    intros p sg Hp. split; [|done]. intros [key Hk]. by rewrite lookup_empty in Hk.
  - rewrite map_fold_insert_first_key by done.
    destruct IH as (signals1 & -> & Hlen & Hspec).
    { intros k q Hk. apply (Hreg k q).
      rewrite lookup_insert_ne; [done|]. intros ->. congruence. }
    destruct (Hreg key p) as (sg & Hp & Hidle); [apply lookup_insert_eq|].
    destruct (Hspec p sg Hp) as [Hin Hout].
    pose proof (registered_or_not registry p) as Hcase.
    assert (Hstep : ∃ signals',
              cleanup_signal p signals1 = Some signals' ∧
              length signals' = length signals1 ∧
              signals' !! p = Some (signalled sg) ∧
              (∀ q, q ≠ p → signals' !! q = signals1 !! q)).
    { destruct Hcase as [Hreg1|Hreg1].
      - exists signals1. pose proof (Hin Hreg1) as Hs. split_and!; try done.
        rewrite (cleanup_signal_spec p signals1 (signalled sg) Hs).
        + by rewrite signalled_idempotent, list_insert_id.
        + by destruct sg as [[|] buffer].
      - exists (<[p := signalled sg]> signals1).
        pose proof (Hout Hreg1) as Hs.
        rewrite (cleanup_signal_spec p signals1 sg Hs Hidle).
        split_and!; [done|by rewrite length_insert| |].
        + apply list_lookup_insert_eq. rewrite Hlen. by eapply lookup_lt_Some.
        + intros q Hq. by rewrite list_lookup_insert_ne. }
    destruct Hstep as (signals2 & Hrun & Hlen2 & Hp2 & Hother).
    exists signals2. simpl. split_and!; [done|congruence|].
    intros q sq Hq. destruct (decide (q = p)) as [->|Hne].
    + assert (sq = sg) as -> by congruence. split; [done|].
      intros Hno. exfalso. apply (Hno key). apply lookup_insert_eq.
    + rewrite (Hother q Hne). destruct (Hspec q sq Hq) as [Hin' Hout']. split.
      * intros [k Hk]. apply Hin'. exists k.
        destruct (decide (key = k)) as [->|Hk'].
        -- rewrite lookup_insert_eq in Hk. congruence.
        -- by rewrite lookup_insert_ne in Hk.
      * intros Hno. apply Hout'. intros k Hk. apply (Hno k).
        rewrite lookup_insert_ne; [done|]. intros ->. congruence.
Qed.

(** X12. When every registered spooler that is not shutting down has an
    empty shutdown channel, the daemon's loop gets past every spooler
    without waiting; afterwards every registered spooler is shutting down,
    those that were not have got one signal and the others none, and the
    spoolers that are not registered are untouched; the loop run again
    sends nothing. *)
Theorem cleanup_signals_once (registry : gmap string ptr)
    (signals : list spooler_signal) :
  (∀ (key : string) (p : ptr), registry !! key = Some p →
     ∃ sg, signals !! p = Some sg ∧
           (sig_isShuttingDown sg = false → sig_shutdownChan sg = [])) ->
  ∃ signals',
    cleanup_signals registry signals = Some signals' ∧
    length signals' = length signals ∧
    (∀ (p : ptr) (sg : spooler_signal), signals !! p = Some sg →
       ((∃ key, registry !! key = Some p) → signals' !! p = Some (signalled sg)) ∧
       ((∀ key, registry !! key ≠ Some p) → signals' !! p = Some sg)) ∧
    cleanup_signals registry signals' = Some signals'.
Proof.
  intros Hreg.
  destruct (cleanup_signals_spec registry signals Hreg)
    as (signals1 & Hrun & Hlen & Hspec).
  exists signals1. split_and!; try done.
  destruct (cleanup_signals_spec registry signals1)
    as (signals2 & Hrun2 & Hlen2 & Hspec2).
  { intros key p Hk. destruct (Hreg key p Hk) as (sg & Hp & Hidle).
    exists (signalled sg). split; [apply (Hspec p sg Hp); eauto|].
    by destruct sg as [[|] buffer]. }
  rewrite Hrun2. f_equal. apply list_eq. intros p.
  destruct (signals !! p) as [sg|] eqn:Hp.
  - pose proof (registered_or_not registry p) as Hcase.
    destruct (Hspec p sg Hp) as [Hin Hout]. destruct Hcase as [Hr|Hr].
    + destruct (Hspec2 p _ (Hin Hr)) as [Hin2 _].
      transitivity (Some (signalled sg)); [|symmetry; exact (Hin Hr)].
      rewrite <-signalled_idempotent. exact (Hin2 Hr).
    + destruct (Hspec2 p _ (Hout Hr)) as [_ Hout2].
      transitivity (Some sg); [exact (Hout2 Hr) | symmetry; exact (Hout Hr)].
  - apply lookup_ge_None in Hp.
    transitivity (@None spooler_signal); [|symmetry];
      apply lookup_ge_None; lia.
Qed.

Lemma cleanup_signals_once_witness :
  ∃ signals',
    cleanup_signals {["a__.b__" := 0%nat; "c__.d__" := 2%nat]}
      (replicate 3 {| sig_isShuttingDown := false; sig_shutdownChan := [] |}) =
      Some signals' ∧
    length signals' =
      length (replicate 3 {| sig_isShuttingDown := false; sig_shutdownChan := [] |}) ∧
    (∀ (p : ptr) (sg : spooler_signal),
       replicate 3 {| sig_isShuttingDown := false; sig_shutdownChan := [] |} !! p
         = Some sg →
       ((∃ key, ({["a__.b__" := 0%nat; "c__.d__" := 2%nat]} : gmap string ptr) !! key
                  = Some p) →
        signals' !! p = Some (signalled sg)) ∧
       ((∀ key, ({["a__.b__" := 0%nat; "c__.d__" := 2%nat]} : gmap string ptr) !! key
                  ≠ Some p) →
        signals' !! p = Some sg)) ∧
    cleanup_signals {["a__.b__" := 0%nat; "c__.d__" := 2%nat]} signals' =
      Some signals'.
Proof.
  apply (cleanup_signals_once {["a__.b__" := 0%nat; "c__.d__" := 2%nat]}
           (replicate 3 {| sig_isShuttingDown := false; sig_shutdownChan := [] |})).
  intros key p Hk. exists {| sig_isShuttingDown := false; sig_shutdownChan := [] |}.
  split; [|done]. apply lookup_replicate_2.
  destruct (decide (key = "a__.b__")) as [->|Hne].
  - rewrite lookup_insert_eq in Hk. injection Hk as <-. lia.
  - rewrite lookup_insert_ne in Hk by done.
    destruct (decide (key = "c__.d__")) as [->|Hne'].
    + rewrite lookup_singleton_eq in Hk. injection Hk as <-. lia.
    + by rewrite lookup_singleton_ne in Hk.
Defined.

(** ** The loop of a spooler *)

Lemma sp_count_cons (e e' : spooler_event) (t : list spooler_event) :
  sp_count e (e' :: t) = ((if same_call e e' then 1 else 0) + sp_count e t)%nat.
Proof.
  unfold sp_count. rewrite filter_cons.
  destruct (same_call e e'); by case_decide.
Qed.

Lemma sp_count_app (e : spooler_event) (t t' : list spooler_event) :
  sp_count e (t ++ t') = (sp_count e t + sp_count e t')%nat.
Proof. unfold sp_count. by rewrite filter_app, length_app. Qed.

Section SpoolerLoopFacts.
Variable journal : Type.
Variable Flush : journal -> journal * option error.

Lemma spooler_loop_spec (cases : list select_case) (j : journal) :
  (spooler_loop journal Flush cases j).1.1 =
    Flush_times journal Flush (ticks_before_shutdown cases) j ∧
  (spooler_loop journal Flush cases j).2 = existsb is_shutdown cases ∧
  sp_count Sp_Flush (spooler_loop journal Flush cases j).1.2 =
    ticks_before_shutdown cases ∧
  sp_count Sp_ticker_Stop (spooler_loop journal Flush cases j).1.2 = 0%nat ∧
  sp_count Sp_journal_Dispose (spooler_loop journal Flush cases j).1.2 = 0%nat ∧
  sp_count Sp_wg_Done (spooler_loop journal Flush cases j).1.2 = 0%nat.
Proof.
  revert j. induction cases as [|[|] rest IH]; intros j; [done| |done].
  cbn [spooler_loop ticks_before_shutdown Flush_times existsb is_shutdown orb].
  destruct (Flush j) as [j' err] eqn:HF. specialize (IH j').
  destruct (spooler_loop journal Flush rest j') as [[j'' t] ended].
  cbn [fst snd] in *. destruct IH as (-> & -> & Hf & Hs & Hd & Hw).
  rewrite !sp_count_cons, !sp_count_app, Hf, Hs, Hd, Hw.
  by destruct err.
Qed.

(** X13. [handle] flushes once for every tick it takes before the first
    shutdown signal and never after it, whether a flush fails or not; when
    the signal comes it returns and, at the very end, stops the ticker,
    disposes the journal and calls [wg.Done], each once; as long as no
    signal has come it does none of the three. *)
Theorem spooler_handle_spec (cases : list select_case) (j : journal) :
  let r := spooler_handle journal Flush cases j in
  r.2 = existsb is_shutdown cases ∧
  r.1.1 = Flush_times journal Flush (ticks_before_shutdown cases) j ∧
  sp_count Sp_Flush r.1.2 = ticks_before_shutdown cases ∧
  sp_count Sp_ticker_Stop r.1.2 = (if r.2 then 1 else 0)%nat ∧
  sp_count Sp_journal_Dispose r.1.2 = (if r.2 then 1 else 0)%nat ∧
  sp_count Sp_wg_Done r.1.2 = (if r.2 then 1 else 0)%nat ∧
  (r.2 = true →
   ∃ t, r.1.2 = t ++ [Sp_log "NOTICE" "Spooler ended";
                      Sp_ticker_Stop; Sp_journal_Dispose; Sp_wg_Done]).
Proof.
  cbv zeta. unfold spooler_handle.
  pose proof (spooler_loop_spec cases j) as (Hj & He & Hf & Hs & Hd & Hw).
  destruct (spooler_loop journal Flush cases j) as [[j' t] ended].
  cbn [fst snd] in *.
  rewrite !sp_count_cons, !sp_count_app, Hf, Hs, Hd, Hw.
  split_and!; try done; try (by destruct ended).
  intros ->. by exists (Sp_log "NOTICE" "Spooler started" :: t).
Qed.

End SpoolerLoopFacts.

Example spooler_handle_example :
  spooler_handle nat Flush_counting
    [Case_tick; Case_tick; Case_shutdown; Case_tick] 0%nat =
  (2%nat,
   [Sp_log "NOTICE" "Spooler started";
    Sp_log "NOTICE" "Flushing..."; Sp_Flush;
    Sp_log "NOTICE" "Flushing..."; Sp_Flush;
    Sp_log "ERROR" "Error during reading from the journal: disk full";
    Sp_log "NOTICE" "Spooler ended";
    Sp_ticker_Stop; Sp_journal_Dispose; Sp_wg_Done],
   true).
Proof. reflexivity. Qed.

(** ** Concurrent calls of Stop, an instance *)

Lemma Stop_concurrent_witness :
  (ch_closes (emitterChan (st_output
     (stop_schedule [0; 1; 1; 0; 2; 2]%nat (stop_start 3 (NewTDOutput "*" "*")))))
   <= S (ch_closes (emitterChan (NewTDOutput "*" "*"))))%nat ∧
  Forall (λ pc, has_panicked pc = false)
    (st_callers
       (stop_schedule [0; 1; 1; 0; 2; 2]%nat (stop_start 3 (NewTDOutput "*" "*")))).
Proof.
  apply (Stop_concurrent 3 [0; 1; 1; 0; 2; 2]%nat (NewTDOutput "*" "*"));
    reflexivity.
Defined.
